(** * Cover position controller (cover-control-arduino.ino)

    Shallow embedding of the multi-cover Arduino sketch: UDP command
    ingestion, debounced reading of the wall switch, target computation and
    the actuation of the remote-control opto couplers.  Global arrays are
    lists updated with stdpp's list insert; [digitalWrite] calls are recorded
    in an output log; the two [delay]-driven polling loops read a finite
    prefix of the pin samples and report [None] while they are still
    sampling when that prefix is used up. *)

From Stdlib Require Import ZArith QArith Ascii String.
From stdpp Require Import base list strings relations.

Open Scope Z_scope.

(** ** Constants and enumerations *)

(** [const int OPTO_DOWN[] = {2, 5, 8};] and [OPTO_UP[] = {3, 6, 9};] *)
Definition OPTO_DOWN : list Z := [2; 5; 8].
Definition OPTO_UP : list Z := [3; 6; 9].

(** The number of covers, [sizeof(OPTO_DOWN) / sizeof(int)]. *)
Definition NCOVERS : nat := length OPTO_DOWN.

(** [UDP_TX_PACKET_MAX_SIZE] of the Arduino EthernetUdp library. *)
Definition UDP_TX_PACKET_MAX_SIZE : nat := 24.

Inductive OperationMode := automatic | manual_down | manual_up.
Inductive Position := unknown | up | down.

Global Instance OperationMode_eq_dec : EqDecision OperationMode.
Proof. solve_decision. Defined.
Global Instance Position_eq_dec : EqDecision Position.
Proof. solve_decision. Defined.
Global Instance Position_inhabited : Inhabited Position := populate unknown.

(** Digital levels: [true] is HIGH, [false] is LOW. *)
Definition HIGH : bool := true.
Definition LOW : bool := false.

(** ** Global state *)

Record State := mkState {
  automaticPosition : list Position;
  currentPosition : list Position;
  curtainOpMode : OperationMode;
  packetBuffer : list ascii
}.

(** [Position automaticPosition[] = {unknown, unknown, unknown};] etc.;
    the global [char packetBuffer[]] is zero-initialised. *)
Definition init_state : State := {|
  automaticPosition := [unknown; unknown; unknown];
  currentPosition := [unknown; unknown; unknown];
  curtainOpMode := automatic;
  packetBuffer := replicate UDP_TX_PACKET_MAX_SIZE "000"%char
|}.

Definition set_automaticPosition (st : State) (a : list Position) : State :=
  mkState a (currentPosition st) (curtainOpMode st) (packetBuffer st).
Definition set_currentPosition (st : State) (c : list Position) : State :=
  mkState (automaticPosition st) c (curtainOpMode st) (packetBuffer st).
Definition set_curtainOpMode (st : State) (m : OperationMode) : State :=
  mkState (automaticPosition st) (currentPosition st) m (packetBuffer st).
Definition set_packetBuffer (st : State) (b : list ascii) : State :=
  mkState (automaticPosition st) (currentPosition st) (curtainOpMode st) b.

(** One [digitalWrite(pin, level)] call. *)
Definition Event := (Z * bool)%type.

(** ** Receiving commands: [updateAutomaticPosition] *)

(** A UDP payload is a sequence of bytes. *)
Definition Payload := list ascii.

Definition NUL : ascii := "000"%char.

(** [udp.read(packetBuffer, UDP_TX_PACKET_MAX_SIZE)]: copies the first
    [min(packetSize, UDP_TX_PACKET_MAX_SIZE)] bytes of the payload to the
    start of the buffer, the rest of the buffer keeps its old bytes. *)
Definition udp_read (buf : list ascii) (p : Payload) : list ascii :=
  let n := Nat.min (length p) UDP_TX_PACKET_MAX_SIZE in
  take n p ++ drop n buf.

(** [if (packetSize < UDP_TX_PACKET_MAX_SIZE) packetBuffer[packetSize] = 0x00;] *)
Definition terminate (buf : list ascii) (packetSize : nat) : list ascii :=
  if decide (packetSize < UDP_TX_PACKET_MAX_SIZE)%nat
  then <[packetSize := NUL]> buf else buf.

(** C [strcmp(s1, s2)]: compares unsigned bytes up to the first difference or
    the common terminator.  [s1] is the buffer, [s2] a literal given with its
    terminating NUL.  Running off the end of the buffer would read past the
    array; it cannot happen for the literals below, which are shorter than
    the buffer (it is answered with a non-zero result). *)
Fixpoint strcmp (s1 s2 : list ascii) : Z :=
  match s1, s2 with
  | c1 :: r1, c2 :: r2 =>
      if decide (c1 = c2) then
        (if decide (c1 = NUL) then 0 else strcmp r1 r2)
      else Z.of_nat (nat_of_ascii c1) - Z.of_nat (nat_of_ascii c2)
  | _, _ => 1
  end.

(** A C string literal, with its terminating NUL. *)
Definition lit (s : string) : list ascii := list_ascii_of_string s ++ [NUL].

(** The body of the [while (true)] loop after [parsePacket] reported a
    packet of size [length p]. *)
Definition handlePacket (st : State) (p : Payload) : State :=
  let buf := terminate (udp_read (packetBuffer st) p) (length p) in
  let st := set_packetBuffer st buf in
  let a := automaticPosition st in
  if decide (strcmp buf (lit "window open") = 0) then
    set_automaticPosition st (<[0%nat := up]> a)
  else if decide (strcmp buf (lit "window close") = 0) then
    set_automaticPosition st (<[0%nat := down]> a)
  else if decide (strcmp buf (lit "curtain open") = 0) then
    set_automaticPosition st (<[2%nat := up]> (<[1%nat := up]> a))
  else if decide (strcmp buf (lit "curtain close") = 0) then
    set_automaticPosition st (<[2%nat := down]> (<[1%nat := down]> a))
  else
    (* unsupported command *)
    st.

(** [udp.parsePacket()] takes the next pending datagram and returns its
    size, 0 when none is pending.  The loop returns as soon as the size is 0
    and yields the datagrams still pending. *)
Fixpoint updateAutomaticPosition (st : State) (q : list Payload)
  : State * list Payload :=
  match q with
  | [] => (st, [])
  | p :: q' =>
      if decide (length p = 0%nat) then (st, q')
      else updateAutomaticPosition (handlePacket st p) q'
  end.

(** ** Reading the wall switch: [getOpMode] and [getOpModeStable] *)

(** One reading of the two input pins [MANUAL_UP] (A2) and [MANUAL_DOWN]
    (A3); the readings are taken 200 ms apart. *)
Record PinSample := mkSample { manualUp : bool; manualDown : bool }.

Definition b2z (b : bool) : Z := if b then 1 else 0.

(** [((digitalRead(MANUAL_UP) == HIGH) << 1) | (digitalRead(MANUAL_DOWN) == HIGH)] *)
Definition pin_code (x : PinSample) : Z :=
  Z.lor (Z.shiftl (b2z (bool_decide (manualUp x = HIGH))) 1)
        (b2z (bool_decide (manualDown x = HIGH))).

(** The [switch] on the pin code; [None] is case 3 (both buttons pressed),
    after which the loop delays and reads again. *)
Definition decode (x : PinSample) : option OperationMode :=
  match pin_code x with
  | 0 => Some automatic
  | 1 => Some manual_down
  | 2 => Some manual_up
  | _ => None
  end.

(** [getOpMode]: reads samples until one is legal; returns the mode and the
    samples not read yet, or [None] if the given samples are used up while
    it is still reading. *)
Fixpoint getOpMode (s : list PinSample) : option (OperationMode * list PinSample) :=
  match s with
  | [] => None
  | x :: s' =>
      match decode x with
      | Some m => Some (m, s')
      | None => getOpMode s'
      end
  end.

(** The [do { ... } while (previousOpMode != opMode);] loop.  Every call of
    [getOpMode] reads at least one sample, so [length s] iterations are
    enough fuel (see [stable_loop_fuel]). *)
Fixpoint stable_loop (fuel : nat) (opMode : OperationMode) (s : list PinSample)
  : option (OperationMode * list PinSample) :=
  match fuel with
  | O => None
  | S f =>
      let previousOpMode := opMode in
      match getOpMode s with
      | None => None
      | Some (opMode, s') =>
          if decide (previousOpMode <> opMode) then stable_loop f opMode s'
          else Some (opMode, s')
      end
  end.

Definition getOpModeStable (s : list PinSample)
  : option (OperationMode * list PinSample) :=
  match getOpMode s with
  | None => None
  | Some (opMode, s') => stable_loop (length s') opMode s'
  end.

(** ** Target and actuation *)

Definition getTargetPosition (st : State) (idx : nat) : Position :=
  let opMode := if decide (idx = 0%nat) then automatic else curtainOpMode st in
  match opMode with
  | manual_down => down
  | manual_up => up
  | automatic => automaticPosition st !!! idx
  end.

(** [setPosition]: returns the new state and the [digitalWrite] calls. *)
Definition setPosition (st : State) (idx : nat) (target : Position)
  : State * list Event :=
  if decide (target = currentPosition st !!! idx) then
    (* nothing to do *)
    (st, [])
  else
    let opto :=
      match target with
      | up => Some (OPTO_UP !!! idx)
      | down => Some (OPTO_DOWN !!! idx)
      | unknown => None
      end in
    match opto with
    | None => (st, [])
    | Some opto =>
        (set_currentPosition st (<[idx := target]> (currentPosition st)),
         [(opto, HIGH); (opto, LOW)])
    end.

(** The [for] loop of [loop()]: [setPosition(idx, getTargetPosition(idx))]
    for the indices in order. *)
Fixpoint setPositions (st : State) (idxs : list nat) : State * list Event :=
  match idxs with
  | [] => (st, [])
  | idx :: r =>
      let '(st1, ev1) := setPosition st idx (getTargetPosition st idx) in
      let '(st2, ev2) := setPositions st1 r in
      (st2, ev1 ++ ev2)
  end.

(** One pass of [loop()] ([Ethernet.maintain()] is the network stack's).
    Result: the state, the datagrams still pending, the output log and the
    samples not read, or [None] when the iteration is still reading the
    switch at the end of the given samples. *)
Definition loop (st : State) (q : list Payload) (s : list PinSample)
  : State * list Payload * list Event * option (list PinSample) :=
  let '(st1, q1) := updateAutomaticPosition st q in
  match getOpModeStable s with
  | None => (st1, q1, [], None)
  | Some (m, s') =>
      let st2 := set_curtainOpMode st1 m in
      let '(st3, ev) := setPositions st2 (seq 0 NCOVERS) in
      (st3, q1, ev, Some s')
  end.

(** The single operations the sketch applies to its global state. *)
Inductive step : State -> State -> Prop :=
  | step_packet st p :
      length p <> 0%nat -> step st (handlePacket st p)
  | step_mode st m :
      step st (set_curtainOpMode st m)
  | step_actuate st idx :
      (idx < NCOVERS)%nat ->
      step st (setPosition st idx (getTargetPosition st idx)).1.

Definition reachable (st : State) : Prop := rtc step init_state st.

(** The sketch's arrays keep their sizes. *)
Definition wf (st : State) : Prop :=
  length (automaticPosition st) = NCOVERS /\
  length (currentPosition st) = NCOVERS /\
  length (packetBuffer st) = UDP_TX_PACKET_MAX_SIZE.

(** Helpers used in the statements. *)
Definition payload (s : string) : Payload := list_ascii_of_string s.

(** The C string held in a byte array: the bytes before the first NUL. *)
Fixpoint c_string (l : list ascii) : list ascii :=
  match l with
  | [] => []
  | c :: r => if decide (c = NUL) then [] else c :: c_string r
  end.

(** The four command strings of the sketch. *)
Definition commands : list string :=
  ["window open"; "window close"; "curtain open"; "curtain close"]%string.

(** Both override buttons pressed: pin code 3. *)
Definition both_high (x : PinSample) : Prop :=
  manualUp x = HIGH /\ manualDown x = HIGH.

Definition legal (x : PinSample) : Prop := ~ both_high x.

Global Instance PinSample_eq_dec : EqDecision PinSample.
Proof. solve_decision. Defined.

(** No two consecutive samples of the list are equal. *)
Fixpoint adjacent_distinct (l : list PinSample) : Prop :=
  match l with
  | x :: ((y :: _) as t) => x <> y /\ adjacent_distinct t
  | _ => True
  end.

(** The cover targets a message sets, read from the C string the sketch
    compares: window commands address cover 0, curtain commands covers 1
    and 2. *)
Definition command_target (idx : nat) (p : Payload) : option Position :=
  let c := c_string (take UDP_TX_PACKET_MAX_SIZE p) in
  if decide (c = payload "window open") then
    (if decide (idx = 0%nat) then Some up else None)
  else if decide (c = payload "window close") then
    (if decide (idx = 0%nat) then Some down else None)
  else if decide (c = payload "curtain open") then
    (if decide (idx = 1%nat \/ idx = 2%nat) then Some up else None)
  else if decide (c = payload "curtain close") then
    (if decide (idx = 1%nat \/ idx = 2%nat) then Some down else None)
  else None.

(** The target set for cover [idx] by the last message of [q] addressing it. *)
Fixpoint last_target (idx : nat) (q : list Payload) : option Position :=
  match q with
  | [] => None
  | p :: q' =>
      match last_target idx q' with
      | Some t => Some t
      | None => command_target idx p
      end
  end.

(** The output a pass of [loop()] may write for cover [idx]: nothing, or
    one pulse on its up line or on its down line. *)
Definition cover_pulses (idx : nat) (e : list Event) : Prop :=
  e = [] \/
  e = [(OPTO_UP !!! idx, HIGH); (OPTO_UP !!! idx, LOW)] \/
  e = [(OPTO_DOWN !!! idx, HIGH); (OPTO_DOWN !!! idx, LOW)].

(** ** The first revision: arduino-cover/cover-control/cover-control.ino

    One curtain, the commands "open" and "close" compared with [strncmp],
    one datagram per pass, no debouncing and a signal LED. *)
Module CoverControlV1.

Definition SIGNAL_LED : Z := 7.
Definition OPTO_DOWN : Z := 2.
Definition OPTO_UP : Z := 5.

(** [enum CurtainPosition { unknown, up, down };] *)
Inductive CurtainPosition := unknown | up | down.

Global Instance CurtainPosition_eq_dec : EqDecision CurtainPosition.
Proof. solve_decision. Defined.

Record State := mkState {
  automaticPosition : CurtainPosition;
  currentPosition : CurtainPosition;
  packetBuffer : list ascii
}.

Definition init_state : State :=
  mkState unknown unknown (replicate UDP_TX_PACKET_MAX_SIZE "000"%char).

(** C [strncmp(s1, s2, n)]: as [strcmp], but compares at most [n] bytes. *)
Fixpoint strncmp (s1 s2 : list ascii) (n : nat) {struct n} : Z :=
  match n with
  | O => 0
  | S n' =>
      match s1, s2 with
      | c1 :: r1, c2 :: r2 =>
          if decide (c1 = c2) then
            (if decide (c1 = NUL) then 0 else strncmp r1 r2 n')
          else Z.of_nat (nat_of_ascii c1) - Z.of_nat (nat_of_ascii c2)
      | _, _ => 1
      end
  end.

(** [updateAutomaticPosition]: one [parsePacket] per pass; the datagram is
    read into the buffer without a terminator and compared with
    [strncmp(packetBuffer, "open", packetSize)], then with "close". *)
Definition updateAutomaticPosition (st : State) (q : list Payload)
  : State * list Payload :=
  match q with
  | [] => (st, [])
  | p :: q' =>
      let packetSize := length p in
      if decide (packetSize = 0%nat) then (st, q')
      else
        let buf := udp_read (packetBuffer st) p in
        let a := automaticPosition st in
        let a := if decide (strncmp buf (lit "open") packetSize = 0) then up else a in
        let a := if decide (strncmp buf (lit "close") packetSize = 0) then down else a in
        (mkState a (currentPosition st) buf, q')
  end.

(** [getTargetPosition]: the up button is read first. *)
Definition getTargetPosition (st : State) (x : PinSample) : CurtainPosition :=
  let opMode :=
    if decide (manualUp x = HIGH) then manual_up
    else if decide (manualDown x = HIGH) then manual_down
    else automatic in
  match opMode with
  | manual_down => down
  | manual_up => up
  | automatic => automaticPosition st
  end.

Definition moveCurtain (st : State) (target : CurtainPosition)
  : State * list Event :=
  if decide (target = currentPosition st) then (st, [])
  else
    let opto :=
      match target with
      | up => Some OPTO_UP
      | down => Some OPTO_DOWN
      | unknown => None
      end in
    match opto with
    | None => (st, [])
    | Some opto =>
        (mkState (automaticPosition st) target (packetBuffer st),
         [(SIGNAL_LED, HIGH); (opto, HIGH); (opto, LOW); (SIGNAL_LED, LOW)])
    end.

(** [loop()]: ingest, then [moveCurtain(getTargetPosition())] with the
    pins read once. *)
Definition loop (st : State) (q : list Payload) (x : PinSample)
  : State * list Payload * list Event :=
  let '(st1, q1) := updateAutomaticPosition st q in
  let '(st2, ev) := moveCurtain st1 (getTargetPosition st1 x) in
  (st2, q1, ev).

(** How [strncmp] decides a datagram: it is a non-empty prefix of the
    command, or starts with the command and its NUL. *)
Definition matches (s : string) (p : Payload) : Prop :=
  (length p <= length (payload s) /\ p = take (length p) (payload s))%nat \/
  take (S (length (payload s))) p = lit s.

Global Instance matches_dec s p : Decision (matches s p).
Proof. unfold matches. apply _. Defined.

End CoverControlV1.

(** ** The washer monitor: energy-monitor-shelly.js

    Every second the script reads the plug's power and publishes "start" or
    "stop" with hysteresis.  JS numbers: the counters are integers (Z), the
    power is compared with 20 and 3.2 only, modelled as a rational; no
    double lies strictly between 3.2 and its nearest double, so the
    comparisons agree on every power the device reports. *)
Module WasherMonitor.

Record WState := mkW {
  lastState : string;
  seenAsInactive : Z;
  seenAsActive : Z
}.

(** [let lastState = ''; let seenAsInactive = 0; let seenAsActive = 0;] *)
Definition init_w : WState := mkW "" 0 0.

(** The part of [updateMeasurement] after the power was classified. *)
Definition decide_state (st : WState) (newState : string) (connected : bool)
  : WState * list string :=
  let '(st, newState) :=
    if (String.eqb (lastState st) "start" && String.eqb newState "stop"
        && Z.ltb (seenAsInactive st) 5)%bool then
      (mkW (lastState st) (seenAsInactive st + 1) (seenAsActive st), lastState st)
    else if (String.eqb (lastState st) "stop" && String.eqb newState "start"
             && Z.ltb (seenAsActive st) 5)%bool then
      (mkW (lastState st) (seenAsInactive st) (seenAsActive st + 1), lastState st)
    else if (String.eqb (lastState st) "" && String.eqb newState "stop")%bool then
      (mkW newState (seenAsInactive st) (seenAsActive st), newState)
    else (st, newState) in
  if (negb (String.eqb newState (lastState st)) && connected)%bool then
    (* MQTT.publish(deviceName + "/status/switch:0/power/state", newState, 1, true) *)
    (mkW newState (seenAsInactive st) (seenAsActive st), [newState])
  else (st, []).

(** [updateMeasurement]: [power] is [switchStatus['apower']],
    [connected] is [MQTT.isConnected()]; returns the published states. *)
Definition updateMeasurement (st : WState) (power : Q) (connected : bool)
  : WState * list string :=
  if Qlt_le_dec 20 power then
    decide_state (mkW (lastState st) 0 (seenAsActive st)) "start" connected
  else if Qlt_le_dec power (16 # 5) then
    decide_state (mkW (lastState st) (seenAsInactive st) 0) "stop" connected
  else (st, []).

(** The timer calls [updateMeasurement] once per reading. *)
Fixpoint run (st : WState) (inputs : list (Q * bool)) : WState * list string :=
  match inputs with
  | [] => (st, [])
  | (power, connected) :: rest =>
      let '(st1, pub1) := updateMeasurement st power connected in
      let '(st2, pub2) := run st1 rest in
      (st2, pub1 ++ pub2)
  end.

(** No two consecutive published states are equal. *)
Fixpoint no_repeat (l : list string) : Prop :=
  match l with
  | x :: ((y :: _) as t) => x <> y /\ no_repeat t
  | _ => True
  end.

(** The values the script's globals take: a reported state or the initial
    empty string, and counters that never pass the threshold of 5. *)
Definition well_formed (st : WState) : Prop :=
  (lastState st = "" \/ lastState st = "start" \/ lastState st = "stop") /\
  (0 <= seenAsInactive st <= 5)%Z /\ (0 <= seenAsActive st <= 5)%Z.

End WasherMonitor.

(** ** General lemmas *)

Lemma wf_init : wf init_state.
Proof. repeat split. Qed.

Lemma udp_read_length buf p :
  length buf = UDP_TX_PACKET_MAX_SIZE ->
  length (udp_read buf p) = UDP_TX_PACKET_MAX_SIZE.
Proof.
  intros H. unfold udp_read. rewrite length_app, length_take, length_drop, H.
  lia.
Qed.

Lemma terminate_length buf n : length (terminate buf n) = length buf.
Proof. unfold terminate. case_decide; [apply length_insert | done]. Qed.

Lemma handlePacket_other st p :
  currentPosition (handlePacket st p) = currentPosition st /\
  curtainOpMode (handlePacket st p) = curtainOpMode st /\
  packetBuffer (handlePacket st p) =
    terminate (udp_read (packetBuffer st) p) (length p).
Proof. unfold handlePacket. repeat case_decide; done. Qed.

Lemma handlePacket_wf st p : wf st -> wf (handlePacket st p).
Proof.
  intros (Ha & Hc & Hb). unfold wf.
  destruct (handlePacket_other st p) as (-> & _ & ->).
  split; [| split; [done|]].
  - unfold handlePacket. repeat case_decide; simpl;
      rewrite ?length_insert; done.
  - rewrite terminate_length. by apply udp_read_length.
Qed.

Lemma setPosition_cases st idx target :
  (setPosition st idx target = (st, []) /\
     (target = currentPosition st !!! idx \/ target = unknown)) \/
  (target <> currentPosition st !!! idx /\ target <> unknown /\
   setPosition st idx target =
     (set_currentPosition st (<[idx := target]> (currentPosition st)),
      [(if decide (target = up) then OPTO_UP !!! idx else OPTO_DOWN !!! idx, HIGH);
       (if decide (target = up) then OPTO_UP !!! idx else OPTO_DOWN !!! idx, LOW)])).
Proof.
  unfold setPosition. case_decide as Heq; [left; auto|].
  destruct target; [left; auto | right .. ]; repeat split; try done.
Qed.

Lemma setPosition_wf st idx target : wf st -> wf (setPosition st idx target).1.
Proof.
  intros (Ha & Hc & Hb). unfold wf.
  destruct (setPosition_cases st idx target) as [[-> _] | (_ & _ & ->)];
    [repeat split; done|].
  repeat split; simpl; rewrite ?length_insert; done.
Qed.

Lemma step_wf st st' : step st st' -> wf st -> wf st'.
Proof.
  intros []; [apply handlePacket_wf | | apply setPosition_wf].
  intros (? & ? & ?); repeat split; done.
Qed.

(** Invariants of the single operations hold in every reachable state. *)
Lemma steps_preserve (P : State -> Prop) st st' :
  (forall x y, step x y -> P x -> P y) -> rtc step st st' -> P st -> P st'.
Proof.
  intros Hstep Hr. induction Hr as [x | x y z Hxy Hyz IH]; [done|].
  intros Hx. apply IH. by apply (Hstep x y).
Qed.

Lemma reachable_wf st : reachable st -> wf st.
Proof.
  intros Hr. apply (steps_preserve wf init_state st); [| done | apply wf_init].
  intros x y Hxy. by apply step_wf.
Qed.

(** ** Actuation *)

(** Claim C1: [setPosition] pulses a line of cover [idx] exactly when the
    target is not unknown and differs from the remembered position; then it
    records the target, otherwise it changes neither the state nor the
    outputs.  For a cover at unknown, the targets [up; up] give one pulse on
    the up line and the second call is a no-op. *)
Theorem setPosition_pulse_iff_idempotent (st : State) (idx : nat) (target : Position) :
  (idx < length (currentPosition st))%nat ->
  ((setPosition st idx target).2 <> [] <->
     target <> unknown /\ target <> currentPosition st !!! idx) /\
  ((setPosition st idx target).2 <> [] ->
     (setPosition st idx target).1 =
       set_currentPosition st (<[idx := target]> (currentPosition st)) /\
     currentPosition (setPosition st idx target).1 !!! idx = target) /\
  ((setPosition st idx target).2 = [] -> (setPosition st idx target).1 = st) /\
  (currentPosition st !!! idx = unknown ->
     let '(st1, ev1) := setPosition st idx up in
     ev1 = [(OPTO_UP !!! idx, HIGH); (OPTO_UP !!! idx, LOW)] /\
     setPosition st1 idx up = (st1, [])).
Proof.
  intros Hidx.
  split; [| split; [| split]].
  - destruct (setPosition_cases st idx target) as [[Hs Hor] | (Hne & Hnu & Hs)];
      rewrite Hs; simpl.
    + split; [done|]. intros [H1 H2]. destruct Hor; contradiction.
    + split; done.
  - destruct (setPosition_cases st idx target) as [[Hs Hor] | (Hne & Hnu & Hs)];
      rewrite Hs; simpl; [done|].
    intros _. split; [done|]. by apply list_lookup_total_insert_eq.
  - destruct (setPosition_cases st idx target) as [[Hs Hor] | (Hne & Hnu & Hs)];
      rewrite Hs; simpl; done.
  - intros Hu.
    destruct (setPosition_cases st idx up) as [[_ [Hor | Hor]] | (_ & _ & Hs)];
      [rewrite Hu in Hor; discriminate | discriminate |].
    rewrite Hs. split; [done|].
    set (st1 := set_currentPosition st (<[idx:=up]> (currentPosition st))).
    destruct (setPosition_cases st1 idx up) as [[Hs1 _] | (Hne1 & _ & _)];
      [done|].
    exfalso. apply Hne1. subst st1. simpl.
    by rewrite list_lookup_total_insert_eq.
Qed.

(** Claim C7: a pulse drives exactly one line of the cover, the up line for
    [up] and the down line for [down], and no line of another cover. *)
Theorem setPosition_single_line (st : State) (idx : nat) (target : Position) :
  (idx < NCOVERS)%nat ->
  target <> unknown -> target <> currentPosition st !!! idx ->
  exists opto,
    (setPosition st idx target).2 = [(opto, HIGH); (opto, LOW)] /\
    opto = (if decide (target = up) then OPTO_UP !!! idx else OPTO_DOWN !!! idx) /\
    opto <> (if decide (target = up) then OPTO_DOWN !!! idx else OPTO_UP !!! idx) /\
    (forall j, (j < NCOVERS)%nat -> j <> idx ->
       opto <> OPTO_UP !!! j /\ opto <> OPTO_DOWN !!! j).
Proof.
  intros Hidx Hnu Hne.
  destruct (setPosition_cases st idx target) as [[_ [Hor | Hor]] | (_ & _ & Hs)];
    [contradiction | contradiction |].
  rewrite Hs. simpl. eexists. split; [reflexivity|]. split; [reflexivity|].
  unfold NCOVERS in *; simpl in *.
  split.
  - case_decide; destruct idx as [|[|[|]]]; simpl; try lia.
  - intros j Hj Hji.
    case_decide; destruct idx as [|[|[|]]]; destruct j as [|[|[|]]];
      simpl; try lia; split; lia.
Qed.

(** ** Target computation *)

(** Claim C2: cover 0 follows its automatic target whatever the curtain
    mode; covers 1 and 2 are [down] under [manual_down], [up] under
    [manual_up] and follow their automatic target under [automatic]. *)
Theorem getTargetPosition_modes (st : State) :
  getTargetPosition st 0%nat = automaticPosition st !!! 0%nat /\
  (forall idx, (1 <= idx <= 2)%nat ->
     (curtainOpMode st = manual_down -> getTargetPosition st idx = down) /\
     (curtainOpMode st = manual_up -> getTargetPosition st idx = up) /\
     (curtainOpMode st = automatic ->
        getTargetPosition st idx = automaticPosition st !!! idx)).
Proof.
  split; [reflexivity|].
  intros idx Hidx. unfold getTargetPosition.
  case_decide; [lia|].
  repeat split; intros ->; reflexivity.
Qed.

(** ** Command recognition *)

Lemma nat_of_ascii_inj c1 c2 : nat_of_ascii c1 = nat_of_ascii c2 -> c1 = c2.
Proof.
  intros H. rewrite <- (ascii_nat_embedding c1), <- (ascii_nat_embedding c2).
  by rewrite H.
Qed.

(** [strcmp] against a literal is 0 exactly when the C string in the buffer
    is the literal, as long as the literal is shorter than the buffer. *)
Lemma strcmp_lit (l b : list ascii) :
  NUL ∉ l -> (length l < length b)%nat ->
  strcmp b (l ++ [NUL]) = 0 <-> c_string b = l.
Proof.
  revert b. induction l as [|x l IH]; intros b Hnul Hlen;
    destruct b as [|c b]; cbn [length app strcmp c_string] in *; try lia.
  - destruct (decide (c = NUL)) as [Hc|Hc]; [done|].
    split; [| done].
    intros H. exfalso. apply Hc. apply nat_of_ascii_inj.
    change (nat_of_ascii NUL) with 0%nat in *. lia.
  - assert (x <> NUL) as Hx by (intros ->; apply Hnul; left).
    assert (NUL ∉ l) as Hl by (intros Hin; apply Hnul; by right).
    destruct (decide (c = x)) as [->|Hc].
    + destruct (decide (x = NUL)); [contradiction|].
      rewrite IH by (done || lia). split; [intros ->; done | intros [=]; done].
    + split.
      * intros H. exfalso. apply Hc. apply nat_of_ascii_inj. lia.
      * destruct (decide (c = NUL)); [done|]. intros [=]. contradiction.
Qed.

Lemma c_string_app_nul l r : c_string (l ++ NUL :: r) = c_string l.
Proof.
  induction l as [|c l IH]; cbn [app c_string].
  - by destruct (decide (NUL = NUL)).
  - destruct (decide (c = NUL)); [done|]. by rewrite IH.
Qed.

(** After [udp.read] and the terminator, the buffer holds the C string of
    the first [UDP_TX_PACKET_MAX_SIZE] bytes of the payload. *)
Lemma buffer_c_string buf p :
  length buf = UDP_TX_PACKET_MAX_SIZE ->
  c_string (terminate (udp_read buf p) (length p)) =
  c_string (take UDP_TX_PACKET_MAX_SIZE p).
Proof.
  intros Hb. unfold terminate, udp_read. case_decide as Hp.
  - rewrite Nat.min_l by lia. rewrite take_ge by lia. rewrite take_ge by lia.
    destruct (drop (length p) buf) as [|d rest] eqn:Hd.
    + exfalso. apply (f_equal length) in Hd. rewrite length_drop in Hd.
      simpl in Hd. lia.
    + rewrite <- (Nat.add_0_r (length p)) at 1.
      rewrite insert_app_r. simpl. apply c_string_app_nul.
  - rewrite Nat.min_r by lia. rewrite drop_ge by lia. by rewrite app_nil_r.
Qed.

Lemma strcmp_command buf p s :
  length buf = UDP_TX_PACKET_MAX_SIZE ->
  s ∈ commands ->
  strcmp (terminate (udp_read buf p) (length p)) (lit s) = 0 <->
  c_string (take UDP_TX_PACKET_MAX_SIZE p) = payload s.
Proof.
  intros Hb Hs. unfold commands in Hs. rewrite <- (buffer_c_string buf p Hb). unfold lit.
  apply strcmp_lit.
  - repeat (apply elem_of_cons in Hs as [-> | Hs];
      [apply (bool_decide_unpack _); vm_compute; reflexivity|]).
    by apply elem_of_nil in Hs.
  - rewrite terminate_length, udp_read_length by done.
    repeat (apply elem_of_cons in Hs as [-> | Hs]; [vm_compute; lia|]).
    by apply elem_of_nil in Hs.
Qed.

(** The effect of one packet on the automatic targets, by the C string the
    sketch compares. *)
Lemma handlePacket_auto st p :
  wf st ->
  let c := c_string (take UDP_TX_PACKET_MAX_SIZE p) in
  let a := automaticPosition st in
  automaticPosition (handlePacket st p) =
    if decide (c = payload "window open") then <[0%nat := up]> a
    else if decide (c = payload "window close") then <[0%nat := down]> a
    else if decide (c = payload "curtain open") then <[2%nat := up]> (<[1%nat := up]> a)
    else if decide (c = payload "curtain close") then <[2%nat := down]> (<[1%nat := down]> a)
    else a.
Proof.
  intros (_ & _ & Hb). simpl. unfold handlePacket.
  assert (Hc : forall s, s ∈ commands ->
    strcmp (terminate (udp_read (packetBuffer st) p) (length p)) (lit s) = 0 <->
    c_string (take UDP_TX_PACKET_MAX_SIZE p) = payload s)
    by (intros; by apply strcmp_command).
  pose proof (Hc "window open"%string ltac:(unfold commands; set_solver)).
  pose proof (Hc "window close"%string ltac:(unfold commands; set_solver)).
  pose proof (Hc "curtain open"%string ltac:(unfold commands; set_solver)).
  pose proof (Hc "curtain close"%string ltac:(unfold commands; set_solver)).
  clear Hc.
  repeat match goal with |- context [decide ?P] => destruct (decide P) end;
    simpl; try done; exfalso; tauto.
Qed.

Lemma updateAutomaticPosition_single st p :
  length p <> 0%nat -> updateAutomaticPosition st [p] = (handlePacket st p, []).
Proof. intros Hp. simpl. by destruct (decide (length p = 0%nat)). Qed.

(** A zero-length datagram makes [parsePacket] return 0, which ends the
    loop; the datagrams behind it stay pending. *)
Lemma updateAutomaticPosition_empty_datagram st q :
  updateAutomaticPosition st ([] :: q) = (st, q).
Proof. reflexivity. Qed.

Lemma handlePacket_target st p idx :
  wf st -> (idx < NCOVERS)%nat ->
  automaticPosition (handlePacket st p) !!! idx =
    match command_target idx p with
    | Some t => t
    | None => automaticPosition st !!! idx
    end.
Proof.
  intros Hwf Hidx. rewrite (handlePacket_auto st p Hwf). cbv zeta.
  destruct Hwf as (Ha & _ & _). unfold command_target.
  destruct (automaticPosition st) as [|a0 [|a1 [|a2 []]]]; try discriminate.
  unfold NCOVERS in Hidx; simpl in Hidx.
  repeat match goal with |- context [decide ?P] => destruct (decide P) end;
    destruct idx as [|[|[|]]]; simpl in *; try lia; try done;
    exfalso; intuition lia.
Qed.

(** ** Command ingestion *)

(** Claim C3: "window open" / "window close" set cover 0's automatic target
    and nothing else, "curtain open" / "curtain close" set covers 1 and 2
    and leave cover 0, "frobnicate" changes nothing. *)
Theorem ingest_command_mapping (st : State) :
  reachable st ->
  let A := fun s => automaticPosition (updateAutomaticPosition st [payload s]).1 in
  let a := automaticPosition st in
  A "window open"%string = <[0%nat := up]> a /\
  A "window close"%string = <[0%nat := down]> a /\
  A "curtain open"%string = <[2%nat := up]> (<[1%nat := up]> a) /\
  A "curtain close"%string = <[2%nat := down]> (<[1%nat := down]> a) /\
  A "frobnicate"%string = a.
Proof.
  intros Hr. pose proof (reachable_wf st Hr) as Hwf. cbv beta zeta.
  rewrite !updateAutomaticPosition_single by (vm_compute; discriminate).
  simpl fst. rewrite !(handlePacket_auto st _ Hwf).
  repeat split; reflexivity.
Qed.

(** Claim C4 fails: a payload that is not one of the four strings, the
    command "window open" followed by a NUL byte and one more byte, moves
    cover 0's automatic target, since [strcmp] stops at the NUL. *)
Lemma ingest_nul_terminated_counterexample :
  let p := payload "window open" ++ [NUL; "x"%char] in
  (p ∉ map payload commands) /\
  automaticPosition init_state = [unknown; unknown; unknown] /\
  automaticPosition (updateAutomaticPosition init_state [p]).1 = [up; unknown; unknown].
Proof.
  split; [apply (bool_decide_unpack _); vm_compute; reflexivity|].
  split; vm_compute; reflexivity.
Qed.

(** Claim C4, as amended: a payload whose C string (the bytes before the
    first NUL within its first [UDP_TX_PACKET_MAX_SIZE] bytes) is none of
    the four commands, an empty or an oversized payload among them, leaves
    every automatic target unchanged, and ingestion returns normally; a
    payload whose C string is a command acts as that command. *)
Theorem ingest_ignores_non_command (st : State) (p : Payload) :
  reachable st ->
  (updateAutomaticPosition st [p]).2 = [] /\
  (c_string (take UDP_TX_PACKET_MAX_SIZE p) ∉ (map payload commands) ->
   automaticPosition (updateAutomaticPosition st [p]).1 = automaticPosition st) /\
  (forall s, s ∈ commands ->
   c_string (take UDP_TX_PACKET_MAX_SIZE p) = payload s ->
   automaticPosition (updateAutomaticPosition st [p]).1 =
   automaticPosition (updateAutomaticPosition st [payload s]).1).
Proof.
  intros Hr. pose proof (reachable_wf st Hr) as Hwf.
  split; [simpl; by destruct (decide (length p = 0%nat))|]. split.
  - intros Hc. simpl. destruct (decide (length p = 0%nat)); [done|]. simpl.
    rewrite (handlePacket_auto st p Hwf). cbv zeta.
    repeat match goal with |- context [decide ?P] => destruct (decide P) as [Hd|] end;
      try done; exfalso; apply Hc; rewrite Hd; unfold commands; simpl; set_solver.
  - intros s Hs Hc.
    assert (Hlit : c_string (take UDP_TX_PACKET_MAX_SIZE (payload s)) = payload s
                   /\ length (payload s) <> 0%nat).
    { unfold commands in Hs.
      repeat (apply elem_of_cons in Hs as [-> | Hs]; [split; [reflexivity | vm_compute; lia]|]).
      by apply elem_of_nil in Hs. }
    destruct Hlit as [Hlit Hlen].
    assert (Hp : length p <> 0%nat).
    { intros Hp0. apply nil_length_inv in Hp0. subst p. simpl in Hc.
      rewrite <- Hc in Hlen. simpl in Hlen. lia. }
    rewrite !updateAutomaticPosition_single by done. simpl fst.
    rewrite !(handlePacket_auto st _ Hwf). cbv zeta. by rewrite Hc, Hlit.
Qed.

(** Claim C8 fails: with the pending messages "window open" and then
    "window close" followed by a NUL and one byte (not a command string),
    cover 0's automatic target ends at [down], not at the [up] of the last
    command string addressing it. *)
Lemma ingest_last_command_counterexample :
  let q := [payload "window open"; payload "window close" ++ [NUL; "x"%char]] in
  (payload "window close" ++ [NUL; "x"%char] ∉ map payload commands) /\
  automaticPosition (updateAutomaticPosition init_state q).1 !!! 0%nat = down.
Proof.
  split; [apply (bool_decide_unpack _); vm_compute; reflexivity|].
  vm_compute; reflexivity.
Qed.

Lemma updateAutomaticPosition_drain st q :
  wf st -> Forall (fun p => length p <> 0%nat) q ->
  (updateAutomaticPosition st q).2 = [] /\
  forall idx, (idx < NCOVERS)%nat ->
    automaticPosition (updateAutomaticPosition st q).1 !!! idx =
      match last_target idx q with
      | Some t => t
      | None => automaticPosition st !!! idx
      end.
Proof.
  revert st. induction q as [|p q IH]; intros st Hwf Hq; [done|].
  apply Forall_cons in Hq as [Hp Hq]. simpl.
  destruct (decide (length p = 0%nat)); [contradiction|].
  destruct (IH (handlePacket st p) (handlePacket_wf st p Hwf) Hq) as [Hrest Hidx].
  split; [done|]. intros idx Hi. rewrite (Hidx idx Hi).
  destruct (last_target idx q); [done|]. by apply handlePacket_target.
Qed.

(** Claim C8, as amended: when no pending datagram has length zero,
    ingestion returns at once if nothing is pending, and otherwise reads
    every pending message in arrival order; each cover's automatic target
    is then the one set by the last message addressing it, a message
    counting as the command its C string spells, and is unchanged when no
    message addresses it. *)
Theorem ingest_drains_in_order (st : State) (q : list Payload) :
  reachable st -> Forall (fun p => length p <> 0%nat) q ->
  updateAutomaticPosition st [] = (st, []) /\
  (updateAutomaticPosition st q).2 = [] /\
  forall idx, (idx < NCOVERS)%nat ->
    automaticPosition (updateAutomaticPosition st q).1 !!! idx =
      match last_target idx q with
      | Some t => t
      | None => automaticPosition st !!! idx
      end.
Proof.
  intros Hr Hq. split; [reflexivity|].
  apply updateAutomaticPosition_drain; [by apply reachable_wf | done].
Qed.

(** ** Reading the wall switch *)

Lemma decode_none x : decode x = None <-> both_high x.
Proof.
  destruct x as [[] []]; unfold both_high; simpl; split; intros H;
    try done; destruct H; discriminate.
Qed.

Lemma decode_inj x y m : decode x = Some m -> decode y = Some m -> x = y.
Proof. destruct x as [[] []], y as [[] []]; vm_compute; congruence. Qed.

Lemma legal_decode x : legal x -> exists m, decode x = Some m.
Proof.
  intros Hl. destruct (decode x) as [m|] eqn:Hd; [by exists m|].
  exfalso. apply Hl. by apply decode_none.
Qed.

Lemma app_two_cons_not_single {A} (x : A) pre y rest :
  [x] <> pre ++ y :: y :: rest.
Proof.
  intros H. apply (f_equal length) in H. rewrite length_app in H.
  simpl in H. lia.
Qed.

Lemma adjacent_distinct_tail x l : adjacent_distinct (x :: l) -> adjacent_distinct l.
Proof. destruct l; simpl; tauto. Qed.

Lemma stable_loop_some s : forall x mx fuel m rest,
  Forall legal s -> decode x = Some mx -> (length s <= fuel)%nat ->
  stable_loop fuel mx s = Some (m, rest) <->
  exists pre y, x :: s = pre ++ y :: y :: rest /\ decode y = Some m /\
                adjacent_distinct (pre ++ [y]).
Proof.
  induction s as [|y s IH]; intros x mx fuel m rest Hl Hx Hf.
  - split.
    + destruct fuel; simpl; discriminate.
    + intros (pre & z & Heq & _). by apply app_two_cons_not_single in Heq.
  - apply Forall_cons in Hl as [Hy Hl].
    destruct (legal_decode y Hy) as [my Hmy].
    destruct fuel as [|f]; [simpl in Hf; lia|]. simpl in Hf.
    cbn [stable_loop getOpMode]. rewrite Hmy.
    destruct (decide (mx <> my)) as [Hne|Heq].
    + rewrite (IH y my f m rest Hl Hmy ltac:(lia)).
      assert (x <> y) as Hxy by (intros ->; congruence).
      split.
      * intros (pre & z & Hs & Hz & Ha). exists (x :: pre), z.
        split; [by rewrite Hs|]. split; [done|].
        destruct pre as [|w pre]; simpl in *.
        -- injection Hs as -> _. tauto.
        -- injection Hs as -> _. tauto.
      * intros (pre & z & Hs & Hz & Ha).
        destruct pre as [|w pre]; simpl in Hs.
        -- injection Hs as -> -> _. contradiction.
        -- injection Hs as -> Hs. exists pre, z. split; [done|]. split; [done|].
           by apply adjacent_distinct_tail in Ha.
    + apply dec_stable in Heq. subst my.
      pose proof (decode_inj x y mx Hx Hmy) as <-.
      split.
      * intros [= -> ->]. exists [], x. simpl. done.
      * intros (pre & z & Hs & Hz & Ha).
        destruct pre as [|w pre]; simpl in Hs.
        -- injection Hs as -> _ ->. congruence.
        -- injection Hs as -> Hs. exfalso.
           destruct pre as [|v pre]; simpl in Hs, Ha.
           ++ injection Hs as -> _. tauto.
           ++ injection Hs as -> _. tauto.
Qed.

Lemma stable_loop_none s : forall x mx fuel,
  Forall legal s -> decode x = Some mx -> (length s <= fuel)%nat ->
  stable_loop fuel mx s = None <-> adjacent_distinct (x :: s).
Proof.
  induction s as [|y s IH]; intros x mx fuel Hl Hx Hf.
  - simpl. split; [done|]. destruct fuel; done.
  - apply Forall_cons in Hl as [Hy Hl].
    destruct (legal_decode y Hy) as [my Hmy].
    destruct fuel as [|f]; [simpl in Hf; lia|]. simpl in Hf.
    cbn [stable_loop getOpMode]. rewrite Hmy.
    destruct (decide (mx <> my)) as [Hne|Heq].
    + rewrite (IH y my f Hl Hmy ltac:(lia)).
      assert (x <> y) as Hxy by (intros ->; congruence).
      simpl. tauto.
    + apply dec_stable in Heq. subst my.
      pose proof (decode_inj x y mx Hx Hmy) as <-.
      simpl. split; [discriminate | tauto].
Qed.

(** Claim C5: on legal samples, [getOpModeStable] accepts mode [m] exactly
    at the first two consecutive equal samples, which read [m]; while
    consecutive samples differ it keeps sampling.  On the samples
    [manual_up; manual_down; manual_up; manual_up] it is still sampling after
    each of the first three and accepts [manual_up] at the fourth. *)
Theorem getOpModeStable_debounce (s : list PinSample) :
  Forall legal s ->
  (forall m rest,
     getOpModeStable s = Some (m, rest) <->
     exists pre x, s = pre ++ x :: x :: rest /\ decode x = Some m /\
                   adjacent_distinct (pre ++ [x])) /\
  (getOpModeStable s = None <-> adjacent_distinct s) /\
  map getOpModeStable
    [[mkSample true false];
     [mkSample true false; mkSample false true];
     [mkSample true false; mkSample false true; mkSample true false];
     [mkSample true false; mkSample false true; mkSample true false;
      mkSample true false]] =
  [None; None; None; Some (manual_up, [])].
Proof.
  intros Hl. split; [| split; [| reflexivity]].
  - intros m rest. destruct s as [|x s].
    + split; [discriminate|].
      intros (pre & x & Hs & _). apply (f_equal length) in Hs.
      rewrite length_app in Hs. simpl in Hs. lia.
    + apply Forall_cons in Hl as [Hx Hl].
      destruct (legal_decode x Hx) as [mx Hmx].
      unfold getOpModeStable. simpl. rewrite Hmx.
      by apply stable_loop_some.
  - destruct s as [|x s]; [done|].
    apply Forall_cons in Hl as [Hx Hl].
    destruct (legal_decode x Hx) as [mx Hmx].
    unfold getOpModeStable. simpl. rewrite Hmx.
    by apply stable_loop_none.
Qed.

Lemma getOpMode_consumes s m s' :
  getOpMode s = Some (m, s') -> (length s' < length s)%nat.
Proof.
  revert m s'. induction s as [|x s IH]; intros m s' H; [discriminate|].
  simpl in H. destruct (decode x).
  - injection H as _ <-. simpl. lia.
  - apply IH in H. simpl. lia.
Qed.

(** [length s] iterations of the [do ... while] loop are enough: more fuel
    gives the same answer. *)
Lemma stable_loop_S f m s :
  stable_loop (S f) m s =
  match getOpMode s with
  | None => None
  | Some (m', s') => if decide (m <> m') then stable_loop f m' s' else Some (m', s')
  end.
Proof. reflexivity. Qed.

Lemma stable_loop_fuel fuel m s :
  (length s <= fuel)%nat -> stable_loop (S fuel) m s = stable_loop fuel m s.
Proof.
  revert m s. induction fuel as [|f IH]; intros m s Hf.
  - destruct s; [reflexivity | simpl in Hf; lia].
  - rewrite (stable_loop_S (S f)), (stable_loop_S f).
    destruct (getOpMode s) as [[m' s']|] eqn:Hg; [|done].
    apply getOpMode_consumes in Hg.
    destruct (decide (m <> m')); [|done].
    apply IH. lia.
Qed.

Lemma getOpMode_some s m rest :
  getOpMode s = Some (m, rest) <->
  exists pre x, s = pre ++ x :: rest /\ Forall both_high pre /\
                ~ both_high x /\ decode x = Some m.
Proof.
  induction s as [|x s IH].
  - split; [discriminate|]. intros (pre & x & Hs & _).
    apply (f_equal length) in Hs. rewrite length_app in Hs. simpl in Hs. lia.
  - simpl. destruct (decode x) as [mx|] eqn:Hx.
    + assert (~ both_high x) as Hnb by (rewrite <- decode_none; congruence).
      split.
      * intros [= -> ->]. exists [], x. repeat split; auto.
      * intros (pre & y & Hs & Hpre & Hy & Hdy).
        destruct pre as [|w pre]; simpl in Hs.
        -- injection Hs as -> ->. congruence.
        -- injection Hs as -> _. apply Forall_cons in Hpre as [Hw _].
           contradiction.
    + apply decode_none in Hx. rewrite IH. split.
      * intros (pre & y & Hs & Hpre & Hy & Hdy). exists (x :: pre), y.
        rewrite Hs. repeat split; auto.
      * intros (pre & y & Hs & Hpre & Hy & Hdy).
        destruct pre as [|w pre]; simpl in Hs.
        -- injection Hs as -> _. contradiction.
        -- injection Hs as -> Hs. apply Forall_cons in Hpre as [_ Hpre].
           exists pre, y. repeat split; auto.
Qed.

Lemma getOpMode_none s : getOpMode s = None <-> Forall both_high s.
Proof.
  induction s as [|x s IH]; simpl.
  - split; constructor.
  - destruct (decode x) eqn:Hx.
    + split; [discriminate|]. intros Hf. apply Forall_cons in Hf as [Hb _].
      apply decode_none in Hb. congruence.
    + apply decode_none in Hx. rewrite IH. split.
      * by constructor.
      * by intros Hf; apply Forall_cons in Hf as [_ ?].
Qed.

Lemma updateAutomaticPosition_other st q :
  currentPosition (updateAutomaticPosition st q).1 = currentPosition st /\
  curtainOpMode (updateAutomaticPosition st q).1 = curtainOpMode st.
Proof.
  revert st. induction q as [|p q IH]; intros st; [done|]. simpl.
  destruct (decide (length p = 0%nat)); [done|].
  destruct (IH (handlePacket st p)) as [-> ->].
  destruct (handlePacket_other st p) as (-> & -> & _). done.
Qed.

(** Claim C6: the pin code maps both-low to [automatic], only-down to
    [manual_down], only-up to [manual_up] and leaves both-high unresolved;
    [getOpMode] returns the mode of the first sample that is not both-high
    and keeps reading while every sample is both-high.  Then [getOpModeStable]
    does not return either, and the iteration of [loop()] stops after
    ingestion: no output is written and neither the remembered positions nor
    the curtain mode change. *)
Theorem getOpMode_resolution :
  decode (mkSample false false) = Some automatic /\
  decode (mkSample false true) = Some manual_down /\
  decode (mkSample true false) = Some manual_up /\
  decode (mkSample true true) = None /\
  (forall s m rest,
     getOpMode s = Some (m, rest) <->
     exists pre x, s = pre ++ x :: rest /\ Forall both_high pre /\
                   ~ both_high x /\ decode x = Some m) /\
  (forall s, getOpMode s = None <-> Forall both_high s) /\
  (forall st q s, Forall both_high s ->
     getOpModeStable s = None /\
     loop st q s =
       ((updateAutomaticPosition st q).1, (updateAutomaticPosition st q).2, [], None) /\
     currentPosition (updateAutomaticPosition st q).1 = currentPosition st /\
     curtainOpMode (updateAutomaticPosition st q).1 = curtainOpMode st).
Proof.
  split; [reflexivity|]. split; [reflexivity|].
  split; [reflexivity|]. split; [reflexivity|].
  split; [apply getOpMode_some|]. split; [apply getOpMode_none|].
  intros st q s Hs.
  assert (getOpModeStable s = None) as Hn.
  { unfold getOpModeStable. apply getOpMode_none in Hs. by rewrite Hs. }
  split; [done|]. split.
  - unfold loop. destruct (updateAutomaticPosition st q). by rewrite Hn.
  - apply updateAutomaticPosition_other.
Qed.

(** ** Reachable states *)

Lemma updateAutomaticPosition_steps st q :
  rtc step st (updateAutomaticPosition st q).1.
Proof.
  revert st. induction q as [|p q IH]; intros st; simpl; [done|].
  destruct (decide (length p = 0%nat)) as [|Hp]; [done|].
  eapply rtc_l; [by apply step_packet | apply IH].
Qed.

Lemma setPositions_steps st idxs :
  Forall (fun idx => idx < NCOVERS)%nat idxs ->
  rtc step st (setPositions st idxs).1.
Proof.
  revert st. induction idxs as [|idx idxs IH]; intros st Hi; simpl; [done|].
  apply Forall_cons in Hi as [Hidx Hi].
  destruct (setPosition st idx (getTargetPosition st idx)) as [st1 ev1] eqn:Hs.
  destruct (setPositions st1 idxs) as [st2 ev2] eqn:Hs2. simpl.
  eapply rtc_l.
  - apply (step_actuate st idx Hidx).
  - rewrite Hs. simpl. specialize (IH st1 Hi). by rewrite Hs2 in IH.
Qed.

(** Every state one pass of [loop()] leaves is reached by the operations of
    [step]. *)
Lemma loop_steps st q s : rtc step st (loop st q s).1.1.1.
Proof.
  unfold loop.
  pose proof (updateAutomaticPosition_steps st q) as H1.
  destruct (updateAutomaticPosition st q) as [st1 q1]. simpl in H1.
  destruct (getOpModeStable s) as [[m s']|]; [|done].
  destruct (setPositions (set_curtainOpMode st1 m) (seq 0 NCOVERS)) as [st3 ev] eqn:Hs.
  simpl. etrans; [apply H1|]. eapply rtc_l; [apply step_mode|].
  pose proof (setPositions_steps (set_curtainOpMode st1 m) (seq 0 NCOVERS)) as H3.
  rewrite Hs in H3. apply H3. apply Forall_seq. intros; lia.
Qed.

Lemma step_curtains st st' :
  step st st' -> wf st ->
  automaticPosition st !! 1%nat = automaticPosition st !! 2%nat ->
  automaticPosition st' !! 1%nat = automaticPosition st' !! 2%nat.
Proof.
  intros Hs Hwf Heq. destruct Hs as [st p _ | st m | st idx _].
  - rewrite (handlePacket_auto st p Hwf). cbv zeta.
    destruct Hwf as (Ha & _ & _).
    destruct (automaticPosition st) as [|a0 [|a1 [|a2 []]]]; try discriminate.
    simpl in Heq.
    repeat match goal with |- context [decide ?P] => destruct (decide P) end;
      simpl; done.
  - done.
  - destruct (setPosition_cases st idx (getTargetPosition st idx))
      as [[-> _] | (_ & _ & ->)]; done.
Qed.

(** Claim C9: the two curtains always share one automatic target. *)
Theorem curtains_share_automatic_target (st : State) :
  reachable st -> automaticPosition st !! 1%nat = automaticPosition st !! 2%nat.
Proof.
  intros Hr.
  apply (steps_preserve
           (fun x => wf x /\ automaticPosition x !! 1%nat = automaticPosition x !! 2%nat)
           init_state st); [| done | split; [apply wf_init | reflexivity]].
  intros x y Hxy [Hwf Heq]. split; [by apply (step_wf x y) | by apply (step_curtains x y)].
Qed.

Lemma command_target_known idx p t : command_target idx p = Some t -> t <> unknown.
Proof.
  unfold command_target.
  repeat match goal with |- context [decide ?P] => destruct (decide P) end;
    intros H; inversion H; discriminate.
Qed.

Lemma step_known st st' idx :
  step st st' -> wf st -> (idx < NCOVERS)%nat ->
  (automaticPosition st !!! idx <> unknown -> automaticPosition st' !!! idx <> unknown) /\
  (currentPosition st !!! idx <> unknown -> currentPosition st' !!! idx <> unknown).
Proof.
  intros Hs Hwf Hidx. destruct Hs as [st p _ | st m | st j _].
  - rewrite (handlePacket_target st p idx Hwf Hidx).
    destruct (handlePacket_other st p) as (-> & _ & _).
    split; [| done].
    destruct (command_target idx p) eqn:Hc; [|done].
    intros _. by apply command_target_known in Hc.
  - done.
  - destruct (setPosition_cases st j (getTargetPosition st j))
      as [[-> _] | (_ & Hnu & ->)]; [done|].
    split; [done|]. simpl.
    destruct (decide (j = idx)) as [->|Hne].
    + destruct Hwf as (_ & Hc & _).
      rewrite list_lookup_total_insert_eq by (rewrite Hc; done). done.
    + by rewrite list_lookup_total_insert_ne.
Qed.

(** Claim C10: once a cover's automatic target or remembered position is
    [up] or [down], no later state brings it back to [unknown]. *)
Theorem positions_stay_known (st st' : State) (idx : nat) :
  reachable st -> rtc step st st' -> (idx < NCOVERS)%nat ->
  (automaticPosition st !!! idx <> unknown ->
     automaticPosition st' !!! idx <> unknown) /\
  (currentPosition st !!! idx <> unknown ->
     currentPosition st' !!! idx <> unknown).
Proof.
  intros Hr Hs Hidx. pose proof (reachable_wf st Hr) as Hwf. clear Hr.
  induction Hs as [x | x y z Hxy Hyz IH]; [done|].
  destruct (step_known x y idx Hxy Hwf Hidx) as [Ha Hc].
  destruct (IH (step_wf x y Hxy Hwf)) as [Ha' Hc'].
  split; auto.
Qed.

(** ** Instances of the claims' theorems at concrete states *)

Lemma setPosition_pulse_iff_idempotent_witness :
  (0 < length (currentPosition init_state))%nat /\
  ((setPosition init_state 0 up).2 <> [] <->
     up <> unknown /\ up <> currentPosition init_state !!! 0%nat).
Proof.
  split; [simpl; lia|].
  apply (proj1 (setPosition_pulse_iff_idempotent init_state 0 up ltac:(simpl; lia))).
Defined.

Lemma setPosition_single_line_witness :
  (0 < NCOVERS)%nat /\ up <> unknown /\ up <> currentPosition init_state !!! 0%nat /\
  exists opto,
    (setPosition init_state 0 up).2 = [(opto, HIGH); (opto, LOW)] /\
    opto = (if decide (up = up) then OPTO_UP !!! 0%nat else OPTO_DOWN !!! 0%nat) /\
    opto <> (if decide (up = up) then OPTO_DOWN !!! 0%nat else OPTO_UP !!! 0%nat) /\
    (forall j, (j < NCOVERS)%nat -> j <> 0%nat ->
       opto <> OPTO_UP !!! j /\ opto <> OPTO_DOWN !!! j).
Proof.
  split; [vm_compute; lia|]. split; [discriminate|]. split; [vm_compute; discriminate|].
  apply (setPosition_single_line init_state 0 up);
    [vm_compute; lia | discriminate | vm_compute; discriminate].
Defined.

Lemma ingest_command_mapping_witness :
  reachable init_state /\
  automaticPosition (updateAutomaticPosition init_state [payload "window open"]).1 =
    <[0%nat := up]> (automaticPosition init_state).
Proof.
  split; [apply rtc_refl|].
  apply (proj1 (ingest_command_mapping init_state (rtc_refl _ _))).
Defined.

Lemma ingest_ignores_non_command_witness :
  reachable init_state /\
  (updateAutomaticPosition init_state [payload "frobnicate"]).2 = [].
Proof.
  split; [apply rtc_refl|].
  apply (proj1 (ingest_ignores_non_command init_state (payload "frobnicate")
                  (rtc_refl _ _))).
Defined.

Lemma ingest_drains_in_order_witness :
  reachable init_state /\
  Forall (fun p => length p <> 0%nat) [payload "window open"; payload "curtain close"] /\
  (updateAutomaticPosition init_state [payload "window open"; payload "curtain close"]).2 = [].
Proof.
  split; [apply rtc_refl|].
  assert (Hq : Forall (fun p => length p <> 0%nat)
                 [payload "window open"; payload "curtain close"])
    by (repeat constructor; vm_compute; lia).
  split; [exact Hq|].
  apply (proj1 (proj2 (ingest_drains_in_order init_state _ (rtc_refl _ _) Hq))).
Defined.

Lemma getOpModeStable_debounce_witness :
  let s := [mkSample true false; mkSample false true; mkSample true false;
            mkSample true false] in
  Forall legal s /\ (getOpModeStable s = None <-> adjacent_distinct s).
Proof.
  cbv zeta.
  assert (Hl : Forall legal [mkSample true false; mkSample false true;
                             mkSample true false; mkSample true false])
    by (repeat constructor; unfold legal, both_high; simpl; intros [? ?]; discriminate).
  split; [exact Hl|].
  apply (proj1 (proj2 (getOpModeStable_debounce _ Hl))).
Defined.

Lemma curtains_share_automatic_target_witness :
  let st := handlePacket init_state (payload "curtain open") in
  reachable st /\ automaticPosition st !! 1%nat = automaticPosition st !! 2%nat.
Proof.
  cbv zeta.
  assert (Hr : reachable (handlePacket init_state (payload "curtain open")))
    by (apply rtc_once, step_packet; vm_compute; lia).
  split; [exact Hr|].
  apply (curtains_share_automatic_target _ Hr).
Defined.

Lemma positions_stay_known_witness :
  let st1 := handlePacket init_state (payload "window open") in
  let st := (setPosition st1 0 (getTargetPosition st1 0)).1 in
  let st' := handlePacket (set_curtainOpMode st manual_down) (payload "window close") in
  reachable st /\ rtc step st st' /\ (0 < NCOVERS)%nat /\
  automaticPosition st !!! 0%nat = up /\ currentPosition st !!! 0%nat = up /\
  ((automaticPosition st !!! 0%nat <> unknown ->
      automaticPosition st' !!! 0%nat <> unknown) /\
   (currentPosition st !!! 0%nat <> unknown ->
      currentPosition st' !!! 0%nat <> unknown)).
Proof.
  cbv zeta.
  assert (Hr : reachable (setPosition (handlePacket init_state (payload "window open")) 0
                 (getTargetPosition (handlePacket init_state (payload "window open")) 0)).1).
  { apply (rtc_l _ _ (handlePacket init_state (payload "window open")));
      [apply step_packet; vm_compute; lia|].
    apply rtc_once, step_actuate. vm_compute; lia. }
  assert (Hs : rtc step
    (setPosition (handlePacket init_state (payload "window open")) 0
       (getTargetPosition (handlePacket init_state (payload "window open")) 0)).1
    (handlePacket (set_curtainOpMode
       (setPosition (handlePacket init_state (payload "window open")) 0
          (getTargetPosition (handlePacket init_state (payload "window open")) 0)).1
       manual_down) (payload "window close"))).
  { eapply rtc_l; [apply (step_mode _ manual_down)|].
    apply rtc_once, step_packet. vm_compute; lia. }
  split; [exact Hr|]. split; [exact Hs|]. split; [vm_compute; lia|].
  split; [vm_compute; reflexivity|]. split; [vm_compute; reflexivity|].
  exact (positions_stay_known _ _ 0 Hr Hs ltac:(vm_compute; lia)).
Defined.

(** ** Further properties of the sketch *)

Lemma getTargetPosition_ext st st' idx :
  automaticPosition st = automaticPosition st' ->
  curtainOpMode st = curtainOpMode st' ->
  getTargetPosition st idx = getTargetPosition st' idx.
Proof. intros Ha Hm. unfold getTargetPosition. by rewrite Ha, Hm. Qed.

Lemma setPosition_keeps st idx target :
  automaticPosition (setPosition st idx target).1 = automaticPosition st /\
  curtainOpMode (setPosition st idx target).1 = curtainOpMode st /\
  length (currentPosition (setPosition st idx target).1) = length (currentPosition st) /\
  (forall j, j <> idx ->
     currentPosition (setPosition st idx target).1 !!! j = currentPosition st !!! j).
Proof.
  destruct (setPosition_cases st idx target) as [[-> _] | (_ & _ & ->)];
    simpl; [done|].
  split; [done|]. split; [done|]. split; [apply length_insert|].
  intros j Hj. by apply list_lookup_total_insert_ne.
Qed.

Lemma setPositions_keeps st idxs :
  automaticPosition (setPositions st idxs).1 = automaticPosition st /\
  curtainOpMode (setPositions st idxs).1 = curtainOpMode st /\
  length (currentPosition (setPositions st idxs).1) = length (currentPosition st) /\
  (forall j, j ∉ idxs ->
     currentPosition (setPositions st idxs).1 !!! j = currentPosition st !!! j).
Proof.
  revert st. induction idxs as [|idx idxs IH]; intros st; simpl; [done|].
  destruct (setPosition st idx (getTargetPosition st idx)) as [st1 ev1] eqn:Hs.
  destruct (setPositions st1 idxs) as [st2 ev2] eqn:Hs2. simpl.
  destruct (setPosition_keeps st idx (getTargetPosition st idx)) as (Ha & Hm & Hl & Hc).
  rewrite Hs in Ha, Hm, Hl, Hc. simpl in Ha, Hm, Hl, Hc.
  destruct (IH st1) as (Ha' & Hm' & Hl' & Hc'). rewrite Hs2 in Ha', Hm', Hl', Hc'.
  simpl in Ha', Hm', Hl', Hc'.
  split; [congruence|]. split; [congruence|]. split; [congruence|].
  intros j Hj. rewrite Hc' by set_solver. apply Hc. set_solver.
Qed.

(** After the [for] loop every cover with a known target remembers it. *)
Lemma setPositions_post st idxs :
  NoDup idxs -> Forall (fun idx => idx < length (currentPosition st))%nat idxs ->
  forall idx, idx ∈ idxs -> getTargetPosition st idx <> unknown ->
  currentPosition (setPositions st idxs).1 !!! idx = getTargetPosition st idx.
Proof.
  revert st. induction idxs as [|i idxs IH]; intros st Hnd Hlt idx Hin Hnu;
    [by apply elem_of_nil in Hin|].
  apply NoDup_cons in Hnd as [Hni Hnd]. apply Forall_cons in Hlt as [Hi Hlt].
  simpl.
  destruct (setPosition st i (getTargetPosition st i)) as [st1 ev1] eqn:Hs.
  destruct (setPosition_keeps st i (getTargetPosition st i)) as (Ha & Hm & Hl & Hc).
  rewrite Hs in Ha, Hm, Hl, Hc. simpl in Ha, Hm, Hl, Hc.
  destruct (setPositions st1 idxs) as [st2 ev2] eqn:Hs2. simpl.
  destruct (setPositions_keeps st1 idxs) as (_ & _ & _ & Hc2).
  rewrite Hs2 in Hc2. simpl in Hc2.
  apply elem_of_cons in Hin as [<- | Hin].
  - rewrite Hc2 by done.
    destruct (setPosition_cases st idx (getTargetPosition st idx))
      as [[Hs' [Heq | Heq]] | (_ & _ & Hs')]; rewrite Hs in Hs';
      injection Hs' as -> _; [done | contradiction |].
    simpl. by apply list_lookup_total_insert_eq.
  - change st2 with (st2, ev2).1. rewrite <- Hs2.
    rewrite (getTargetPosition_ext st st1 idx) by done.
    apply IH; [done | | done |].
    + eapply Forall_impl; [exact Hlt|]. simpl. intros; lia.
    + by rewrite <- (getTargetPosition_ext st st1 idx).
Qed.

Lemma setPositions_noop st idxs :
  (forall idx, idx ∈ idxs ->
     getTargetPosition st idx = unknown \/
     getTargetPosition st idx = currentPosition st !!! idx) ->
  setPositions st idxs = (st, []).
Proof.
  induction idxs as [|i idxs IH]; intros H; simpl; [done|].
  destruct (setPosition_cases st i (getTargetPosition st i))
    as [[-> _] | (Hne & Hnu & _)].
  - rewrite IH by set_solver. done.
  - exfalso. destruct (H i ltac:(set_solver)); contradiction.
Qed.

Lemma setPositions_events st idxs :
  exists es, (setPositions st idxs).2 = concat es /\ Forall2 cover_pulses idxs es.
Proof.
  revert st. induction idxs as [|i idxs IH]; intros st; simpl; [by exists []|].
  destruct (setPosition st i (getTargetPosition st i)) as [st1 ev1] eqn:Hs.
  destruct (IH st1) as (es & Hes & Hf).
  destruct (setPositions st1 idxs) as [st2 ev2]. simpl in *.
  exists (ev1 :: es). split; [by rewrite Hes|]. constructor; [|done].
  destruct (setPosition_cases st i (getTargetPosition st i))
    as [[Hs' _] | (_ & _ & Hs')]; rewrite Hs in Hs'; injection Hs' as _ ->.
  - by left.
  - right. destruct (decide (getTargetPosition st i = up)); [left | right]; done.
Qed.

Lemma loop_post st q s st' q' ev s' :
  reachable st -> loop st q s = (st', q', ev, Some s') ->
  automaticPosition st' = automaticPosition (updateAutomaticPosition st q).1 /\
  (exists m, getOpModeStable s = Some (m, s') /\ curtainOpMode st' = m) /\
  forall idx, (idx < NCOVERS)%nat -> getTargetPosition st' idx <> unknown ->
    currentPosition st' !!! idx = getTargetPosition st' idx.
Proof.
  intros Hr Hl. unfold loop in Hl.
  pose proof (updateAutomaticPosition_steps st q) as Hst1.
  destruct (updateAutomaticPosition st q) as [st1 q1]. simpl in Hst1 |- *.
  assert (wf st1) as Hwf
    by (apply reachable_wf; unfold reachable; etrans; [exact Hr | exact Hst1]).
  destruct (getOpModeStable s) as [[m s'']|]; [|discriminate].
  destruct (setPositions_keeps (set_curtainOpMode st1 m) (seq 0 NCOVERS))
    as (Ha & Hm & _ & _).
  pose proof (setPositions_post (set_curtainOpMode st1 m) (seq 0 NCOVERS)) as Hp.
  destruct (setPositions (set_curtainOpMode st1 m) (seq 0 NCOVERS)) as [st3 ev3].
  injection Hl as <- <- <- <-. simpl in Ha, Hm. cbn [fst] in Hp.
  split; [done|]. split; [by exists m|].
  intros idx Hidx Hnu.
  rewrite <- (getTargetPosition_ext (set_curtainOpMode st1 m) st3 idx) in Hnu |- *
    by done.
  apply Hp; [apply NoDup_seq | | | done].
  - apply Forall_seq. intros j Hj. destruct Hwf as (_ & Hc & _). simpl. lia.
  - apply elem_of_seq. lia.
Qed.

(** A completed pass of [loop()] leaves every cover whose target is known at
    that target; the actuation changes neither the automatic targets nor
    the curtain mode, which is the debounced reading. *)
Theorem loop_reaches_targets (st : State) q s st' q' ev s' :
  reachable st -> loop st q s = (st', q', ev, Some s') ->
  automaticPosition st' = automaticPosition (updateAutomaticPosition st q).1 /\
  (exists m, getOpModeStable s = Some (m, s') /\ curtainOpMode st' = m) /\
  forall idx, (idx < NCOVERS)%nat -> getTargetPosition st' idx <> unknown ->
    currentPosition st' !!! idx = getTargetPosition st' idx.
Proof. apply loop_post. Qed.

(** After a completed pass, a pass with no datagram pending and the same
    debounced mode writes no output and leaves the state as it is. *)
Theorem loop_steady_state (st : State) q s st' q' ev s' s2 s2' :
  reachable st -> loop st q s = (st', q', ev, Some s') ->
  getOpModeStable s2 = Some (curtainOpMode st', s2') ->
  loop st' [] s2 = (st', [], [], Some s2').
Proof.
  intros Hr Hl Hs2.
  destruct (loop_post st q s st' q' ev s' Hr Hl) as (_ & _ & Hpost).
  unfold loop. cbn [updateAutomaticPosition]. rewrite Hs2.
  replace (set_curtainOpMode st' (curtainOpMode st')) with st' by (by destruct st').
  rewrite setPositions_noop; [done|].
  intros idx Hidx. apply elem_of_seq in Hidx.
  destruct (decide (getTargetPosition st' idx = unknown)); [by left|].
  right. symmetry. apply Hpost; [lia | done].
Qed.

(** The output of a pass: at most one pulse per cover, on one of its two
    lines, the covers in index order. *)
Theorem loop_output_shape (st : State) q s st' q' ev s' :
  loop st q s = (st', q', ev, Some s') ->
  exists e0 e1 e2, ev = e0 ++ e1 ++ e2 /\
    cover_pulses 0 e0 /\ cover_pulses 1 e1 /\ cover_pulses 2 e2.
Proof.
  intros Hl. unfold loop in Hl.
  destruct (updateAutomaticPosition st q) as [st1 q1].
  destruct (getOpModeStable s) as [[m s'']|]; [|discriminate].
  destruct (setPositions_events (set_curtainOpMode st1 m) (seq 0 NCOVERS))
    as (es & Hes & Hf).
  destruct (setPositions (set_curtainOpMode st1 m) (seq 0 NCOVERS)) as [st3 ev3].
  injection Hl as _ _ <- _. simpl in Hes. subst ev3.
  unfold NCOVERS in Hf. simpl in Hf.
  apply Forall2_cons_inv_l in Hf as (e0 & es0 & H0 & Hf & ->).
  apply Forall2_cons_inv_l in Hf as (e1 & es1 & H1 & Hf & ->).
  apply Forall2_cons_inv_l in Hf as (e2 & es2 & H2 & Hf & ->).
  apply Forall2_nil_inv_l in Hf as ->.
  exists e0, e1, e2. simpl. rewrite app_nil_r. done.
Qed.

(** At start-up, with nothing received and the switch in automatic mode, a
    pass writes no output. *)
Theorem loop_startup_silent s s' :
  getOpModeStable s = Some (automatic, s') ->
  loop init_state [] s = (init_state, [], [], Some s').
Proof. intros Hs. unfold loop. simpl. rewrite Hs. reflexivity. Qed.

(** Only the first [UDP_TX_PACKET_MAX_SIZE] bytes of a datagram decide its
    effect. *)
Theorem ingest_first_bytes_decide (st : State) p1 p2 :
  reachable st -> length p1 <> 0%nat -> length p2 <> 0%nat ->
  take UDP_TX_PACKET_MAX_SIZE p1 = take UDP_TX_PACKET_MAX_SIZE p2 ->
  automaticPosition (updateAutomaticPosition st [p1]).1 =
  automaticPosition (updateAutomaticPosition st [p2]).1.
Proof.
  intros Hr H1 H2 Ht. pose proof (reachable_wf st Hr) as Hwf.
  rewrite !updateAutomaticPosition_single by done. simpl.
  rewrite !(handlePacket_auto st _ Hwf). cbv zeta. by rewrite Ht.
Qed.

(** Datagrams behind a zero-length one are left pending: ingestion applies
    the ones before it and stops. *)
Theorem ingest_stops_at_empty_datagram (st : State) pre post :
  Forall (fun p => length p <> 0%nat) pre ->
  updateAutomaticPosition st (pre ++ [] :: post) =
  ((updateAutomaticPosition st pre).1, post).
Proof.
  revert st. induction pre as [|p pre IH]; intros st Hpre; [done|].
  apply Forall_cons in Hpre as [Hp Hpre]. simpl.
  destruct (decide (length p = 0%nat)); [contradiction|]. by apply IH.
Qed.

(** A helper for the debounce: a [stable_loop] that returns [m] has read a
    legal sample giving [m] right before [rest], either confirming the
    previous mode or after an earlier legal reading of [m]. *)
Lemma stable_loop_sound fuel : forall mp s m rest,
  stable_loop fuel mp s = Some (m, rest) ->
  (exists mid y, s = mid ++ y :: rest /\ Forall both_high mid /\
                 decode y = Some m /\ mp = m) \/
  (exists pre x mid y, s = pre ++ x :: mid ++ y :: rest /\ decode x = Some m /\
                       Forall both_high mid /\ decode y = Some m).
Proof.
  induction fuel as [|f IH]; intros mp s m rest Hs; [discriminate|].
  rewrite stable_loop_S in Hs.
  destruct (getOpMode s) as [[m' s']|] eqn:Hg; [|discriminate].
  apply getOpMode_some in Hg as (pre0 & y0 & -> & Hpre0 & _ & Hy0).
  destruct (decide (mp <> m')) as [Hne|Heq].
  - destruct (IH m' s' m rest Hs)
      as [(mid & y & -> & Hmid & Hy & <-) | (pre & x & mid & y & -> & Hx & Hmid & Hy)].
    + right. exists pre0, y0, mid, y. done.
    + right. exists (pre0 ++ y0 :: pre), x, mid, y.
      split; [by rewrite <- app_assoc|done].
  - injection Hs as <- <-. left. exists pre0, y0.
    split; [done|]. split; [done|]. split; [done|].
    destruct (decide (mp = m')); [done|tauto].
Qed.

(** [getOpModeStable] returns a mode only after two legal readings of it,
    with nothing but both-high (illegal) samples between them. *)
Theorem getOpModeStable_two_legal_readings s m rest :
  getOpModeStable s = Some (m, rest) ->
  exists pre x mid y, s = pre ++ x :: mid ++ y :: rest /\ decode x = Some m /\
    Forall both_high mid /\ decode y = Some m.
Proof.
  unfold getOpModeStable. intros Hs.
  destruct (getOpMode s) as [[m0 s1]|] eqn:Hg; [|discriminate].
  apply getOpMode_some in Hg as (pre0 & x0 & -> & _ & _ & Hx0).
  destruct (stable_loop_sound _ _ _ _ _ Hs)
    as [(mid & y & -> & Hmid & Hy & <-) | (pre & x & mid & y & -> & Hx & Hmid & Hy)].
  - exists pre0, x0, mid, y. done.
  - exists (pre0 ++ x0 :: pre), x, mid, y.
    split; [by rewrite <- app_assoc|done].
Qed.

(** ** The first controller revision (arduino-cover/cover-control) *)

Lemma v1_strncmp_lit (l b : list ascii) (n : nat) :
  NUL ∉ l -> (Nat.min n (S (length l)) <= length b)%nat ->
  CoverControlV1.strncmp b (l ++ [NUL]) n = 0 <->
  ((n <= length l)%nat /\ take n b = take n l) \/
  ((length l < n)%nat /\ take (S (length l)) b = l ++ [NUL]).
Proof.
  revert b n. induction l as [|a l IH]; intros b n Hl Hb.
  - destruct n as [|n]; simpl.
    + split; [intros _; left; split; [lia|done]|done].
    + destruct b as [|c b]; simpl in Hb; [lia|].
      destruct (decide (c = NUL)) as [->|Hc].
      * simpl. split; [intros _; right; split; [lia|done]|done].
      * simpl.
        split; [intros H; exfalso; apply Hc, nat_of_ascii_inj; lia|].
        intros [[? _]|[_ H]]; [lia|]. injection H as H. contradiction.
  - apply not_elem_of_cons in Hl as [Ha Hl].
    destruct n as [|n]; simpl.
    + split; [intros _; left; split; [lia|done]|done].
    + destruct b as [|c b]; simpl in Hb; [lia|]. simpl.
      destruct (decide (c = a)) as [->|Hc].
      * rewrite decide_False by done.
        rewrite (IH b n Hl) by (simpl in Hb; lia).
        split.
        -- intros [[? ->]|[? ->]]; [left|right]; split; auto with lia.
        -- intros [[? H]|[? H]]; injection H as H; [left|right]; split; auto with lia.
      * split; [intros H; exfalso; apply Hc, nat_of_ascii_inj; lia|].
        intros [[_ H]|[_ H]]; injection H as H _; contradiction.
Qed.

Lemma v1_take_udp_read (buf p : Payload) j :
  length buf = UDP_TX_PACKET_MAX_SIZE ->
  (j <= Nat.min (length p) UDP_TX_PACKET_MAX_SIZE)%nat ->
  take j (udp_read buf p) = take j p.
Proof.
  intros Hb Hj. unfold udp_read.
  rewrite take_app_le by (rewrite length_take; lia).
  rewrite take_take. f_equal. lia.
Qed.

Lemma v1_strncmp_matches (buf p : Payload) s :
  length buf = UDP_TX_PACKET_MAX_SIZE -> (length (payload s) < 24)%nat ->
  NUL ∉ payload s ->
  CoverControlV1.strncmp (udp_read buf p) (lit s) (length p) = 0 <->
  CoverControlV1.matches s p.
Proof.
  intros Hb Hs Hn. unfold CoverControlV1.matches, lit.
  change (list_ascii_of_string s) with (payload s).
  assert (Hlen : length (udp_read buf p) = UDP_TX_PACKET_MAX_SIZE).
  { unfold udp_read. rewrite length_app, length_take, length_drop. lia. }
  rewrite (v1_strncmp_lit (payload s)) by (done || (rewrite Hlen; unfold UDP_TX_PACKET_MAX_SIZE; lia)).
  split.
  - intros [[Hl Ht]|[Hl Ht]].
    + left. split; [done|]. rewrite <- Ht.
      rewrite v1_take_udp_read by (done || (unfold UDP_TX_PACKET_MAX_SIZE; lia)).
      by rewrite take_ge.
    + right. rewrite <- Ht. symmetry.
      apply v1_take_udp_read; [done|unfold UDP_TX_PACKET_MAX_SIZE; lia].
  - intros [[Hl Ht]|Ht].
    + left. split; [done|].
      rewrite v1_take_udp_read by (done || (unfold UDP_TX_PACKET_MAX_SIZE; lia)).
      rewrite take_ge by lia. done.
    + assert (Hp : (S (length (payload s)) <= length p)%nat).
      { apply (f_equal length) in Ht. rewrite length_take, length_app in Ht.
        change (length [NUL]) with 1%nat in Ht. lia. }
      right. split; [lia|].
      rewrite v1_take_udp_read by (done || (unfold UDP_TX_PACKET_MAX_SIZE; lia)).
      done.
Qed.

Lemma v1_matches_head s c p :
  payload s <> [] ->
  CoverControlV1.matches s (c :: p) -> head (payload s) = Some c.
Proof.
  unfold CoverControlV1.matches, lit.
  change (list_ascii_of_string s) with (payload s).
  destruct (payload s) as [|a l]; [done|]. simpl.
  intros _ [[_ H]|H]; injection H as ->; done.
Qed.

(** In the first revision a datagram is matched with
    [strncmp(packetBuffer, cmd, packetSize)]: any non-empty prefix of
    "open" or "close", or a datagram starting with the command and a NUL,
    sets the automatic target; every other datagram leaves it alone, and
    exactly one datagram is consumed. *)
Theorem v1_ingest_prefix_match (st : CoverControlV1.State) p q :
  length (CoverControlV1.packetBuffer st) = UDP_TX_PACKET_MAX_SIZE ->
  length p <> 0%nat ->
  CoverControlV1.updateAutomaticPosition st (p :: q) =
  (CoverControlV1.mkState
     (if decide (CoverControlV1.matches "open" p) then CoverControlV1.up
      else if decide (CoverControlV1.matches "close" p) then CoverControlV1.down
      else CoverControlV1.automaticPosition st)
     (CoverControlV1.currentPosition st)
     (udp_read (CoverControlV1.packetBuffer st) p), q).
Proof.
  intros Hb Hp. simpl. rewrite decide_False by done.
  pose proof (v1_strncmp_matches _ p "open" Hb) as Ho.
  pose proof (v1_strncmp_matches _ p "close" Hb) as Hc.
  assert (Hno : NUL ∉ payload "open") by (apply (bool_decide_unpack _); vm_compute; reflexivity).
  assert (Hnc : NUL ∉ payload "close") by (apply (bool_decide_unpack _); vm_compute; reflexivity).
  specialize (Ho ltac:(simpl; lia) Hno). specialize (Hc ltac:(simpl; lia) Hnc).
  destruct p as [|c p]; [done|].
  destruct (decide (CoverControlV1.strncmp _ (lit "open") _ = 0)) as [H1|H1];
  destruct (decide (CoverControlV1.strncmp _ (lit "close") _ = 0)) as [H2|H2];
  destruct (decide (CoverControlV1.matches "open" (c :: p))) as [M1|M1];
  destruct (decide (CoverControlV1.matches "close" (c :: p))) as [M2|M2];
  try tauto.
  - apply v1_matches_head in M1; [|done]. apply v1_matches_head in M2; [|done].
    simpl in M1, M2. congruence.
Qed.

(** In the first revision the wall switch overrides received commands: the
    up button wins, then the down button; in automatic mode a known target
    is reached in the same pass. *)
Theorem v1_switch_overrides st q x st' q' ev :
  CoverControlV1.loop st q x = (st', q', ev) ->
  (manualUp x = HIGH -> CoverControlV1.currentPosition st' = CoverControlV1.up) /\
  (manualUp x = LOW -> manualDown x = HIGH ->
   CoverControlV1.currentPosition st' = CoverControlV1.down) /\
  (manualUp x = LOW -> manualDown x = LOW ->
   CoverControlV1.automaticPosition st' <> CoverControlV1.unknown ->
   CoverControlV1.currentPosition st' = CoverControlV1.automaticPosition st').
Proof.
  unfold CoverControlV1.loop.
  destruct (CoverControlV1.updateAutomaticPosition st q) as [st1 q1].
  unfold CoverControlV1.moveCurtain, CoverControlV1.getTargetPosition.
  unfold HIGH, LOW.
  destruct x as [u d]; simpl.
  destruct st1 as [a c b]; simpl.
  destruct u, d, a; simpl;
  repeat match goal with
  | |- context [decide ?P] => destruct (decide P)
  end; simpl; intros H; injection H as H _ _; subst st'; simpl;
  repeat split; intros; subst; congruence.
Qed.

(** ** The washer monitor *)

Ltac washer_red :=
  cbv beta iota delta [andb negb WasherMonitor.lastState
    WasherMonitor.seenAsInactive WasherMonitor.seenAsActive].

Ltac washer_split :=
  repeat (match goal with
  | |- context [Qlt_le_dec ?a ?b] => destruct (Qlt_le_dec a b)
  | |- context [String.eqb ?a ?b] => destruct (String.eqb_spec a b)
  | |- context [Z.ltb ?a ?b] => destruct (Z.ltb_spec a b)
  | |- context [if ?c then _ else _] => is_var c; destruct c
  end; washer_red).

Lemma washer_Q_order (power : Q) :
  (20 < power)%Q -> (power < 16 # 5)%Q -> False.
Proof.
  intros H1 H2. apply (Qlt_not_le _ _ (Qlt_trans _ _ _ H1 H2)).
  vm_compute. intros H; discriminate.
Qed.

Lemma washer_step_publish st power c st1 pub :
  WasherMonitor.updateMeasurement st power c = (st1, pub) ->
  (pub = [] /\ (WasherMonitor.lastState st <> "" ->
                WasherMonitor.lastState st1 = WasherMonitor.lastState st)) \/
  (exists x, pub = [x] /\ x <> WasherMonitor.lastState st /\
             WasherMonitor.lastState st1 = x /\ x <> "").
Proof.
  destruct st as [ls si sa].
  unfold WasherMonitor.updateMeasurement, WasherMonitor.decide_state. washer_red.
  washer_split; intros Hres; injection Hres as <- <-; washer_red;
  first
    [ congruence
    | left; split; [reflexivity|intros; congruence]
    | right; eexists; split; [reflexivity|]; repeat split; congruence ].
Qed.

Lemma washer_run_no_repeat inputs : forall st,
  WasherMonitor.no_repeat (WasherMonitor.run st inputs).2 /\
  (WasherMonitor.lastState st <> "" ->
   head (WasherMonitor.run st inputs).2 <> Some (WasherMonitor.lastState st)).
Proof.
  induction inputs as [|[power c] inputs IH]; intros st; [done|].
  cbn [WasherMonitor.run].
  destruct (WasherMonitor.updateMeasurement st power c) as [st1 pub1] eqn:E.
  specialize (IH st1).
  destruct (WasherMonitor.run st1 inputs) as [st2 pub2]. simpl in IH |- *.
  destruct IH as [IHn IHh].
  destruct (washer_step_publish _ _ _ _ _ E) as [[-> Hl]|(x & -> & Hx & Hl & Hne)].
  - simpl. split; [done|]. intros Hs. rewrite <- Hl by done. by apply IHh; rewrite Hl.
  - simpl. split.
    + destruct pub2 as [|y pub2]; [done|]. split; [|done].
      intros <-. apply (IHh ltac:(congruence)). simpl. congruence.
    + intros _ [= ?]. congruence.
Qed.

Lemma washer_step_before_start st power c st1 pub :
  WasherMonitor.lastState st = "" \/ WasherMonitor.lastState st = "stop" ->
  WasherMonitor.updateMeasurement st power c = (st1, pub) ->
  (pub = [] /\ (WasherMonitor.lastState st1 = "" \/ WasherMonitor.lastState st1 = "stop")) \/
  pub = ["start"].
Proof.
  destruct st as [ls si sa]. simpl. intros Hls.
  unfold WasherMonitor.updateMeasurement, WasherMonitor.decide_state. washer_red.
  destruct Hls as [->| ->];
  washer_split; intros Hres; injection Hres as <- <-; washer_red;
  first [ congruence | right; reflexivity | left; split; [reflexivity|]; tauto ].
Qed.

Lemma washer_run_first_start inputs : forall st,
  WasherMonitor.lastState st = "" \/ WasherMonitor.lastState st = "stop" ->
  forall x rest, (WasherMonitor.run st inputs).2 = x :: rest -> x = "start".
Proof.
  induction inputs as [|[power c] inputs IH]; intros st Hst x rest; [done|].
  cbn [WasherMonitor.run].
  destruct (WasherMonitor.updateMeasurement st power c) as [st1 pub1] eqn:E.
  specialize (IH st1).
  destruct (WasherMonitor.run st1 inputs) as [st2 pub2]. simpl in IH |- *.
  destruct (washer_step_before_start _ _ _ _ _ Hst E) as [[-> Hl]| ->].
  - simpl. by apply IH.
  - simpl. by intros [= <- _].
Qed.

Lemma washer_step_well_formed st power c :
  WasherMonitor.well_formed st ->
  WasherMonitor.well_formed (WasherMonitor.updateMeasurement st power c).1.
Proof.
  destruct st as [ls si sa]. unfold WasherMonitor.well_formed. simpl.
  intros (Hls & Hi & Ha).
  unfold WasherMonitor.updateMeasurement, WasherMonitor.decide_state. washer_red.
  washer_split; cbn [fst]; washer_red;
  try congruence; repeat split; try lia;
  first [ tauto | (left; reflexivity) | (right; left; reflexivity)
        | (right; right; reflexivity) ].
Qed.

Lemma washer_run_well_formed inputs : forall st,
  WasherMonitor.well_formed st ->
  WasherMonitor.well_formed (WasherMonitor.run st inputs).1.
Proof.
  induction inputs as [|[power c] inputs IH]; intros st Hst; [done|].
  cbn [WasherMonitor.run].
  pose proof (washer_step_well_formed st power c Hst) as H1.
  destruct (WasherMonitor.updateMeasurement st power c) as [st1 pub1].
  specialize (IH st1 H1).
  destruct (WasherMonitor.run st1 inputs) as [st2 pub2]. done.
Qed.

Lemma washer_low_step st power :
  WasherMonitor.lastState st = "start" -> (power < 16 # 5)%Q ->
  WasherMonitor.updateMeasurement st power true =
  if Z.ltb (WasherMonitor.seenAsInactive st) 5
  then (WasherMonitor.mkW "start" (WasherMonitor.seenAsInactive st + 1) 0, [])
  else (WasherMonitor.mkW "stop" (WasherMonitor.seenAsInactive st) 0, ["stop"]).
Proof.
  destruct st as [ls si sa]. simpl. intros -> Hp.
  unfold WasherMonitor.updateMeasurement, WasherMonitor.decide_state.
  destruct (Qlt_le_dec 20 power) as [Hh|_].
  { exfalso. exact (washer_Q_order power Hh Hp). }
  destruct (Qlt_le_dec power (16 # 5)) as [_|Hl].
  2:{ exfalso. exact (Qlt_not_le _ _ Hp Hl). }
  simpl. by destruct (Z.ltb_spec si 5).
Qed.

Lemma washer_high_step st power :
  WasherMonitor.lastState st = "stop" -> (20 < power)%Q ->
  WasherMonitor.updateMeasurement st power true =
  if Z.ltb (WasherMonitor.seenAsActive st) 5
  then (WasherMonitor.mkW "stop" 0 (WasherMonitor.seenAsActive st + 1), [])
  else (WasherMonitor.mkW "start" 0 (WasherMonitor.seenAsActive st), ["start"]).
Proof.
  destruct st as [ls si sa]. simpl. intros -> Hp.
  unfold WasherMonitor.updateMeasurement, WasherMonitor.decide_state.
  destruct (Qlt_le_dec 20 power) as [_|Hl].
  2:{ exfalso. exact (Qlt_not_le _ _ Hp Hl). }
  simpl. by destruct (Z.ltb_spec sa 5).
Qed.

(** The monitor never publishes the same state twice in a row, and its
    first publication differs from the state it last published. *)
Theorem washer_no_repeated_publication st inputs :
  WasherMonitor.no_repeat (WasherMonitor.run st inputs).2 /\
  (WasherMonitor.lastState st <> "" ->
   head (WasherMonitor.run st inputs).2 <> Some (WasherMonitor.lastState st)).
Proof. apply washer_run_no_repeat. Qed.

(** From the script's initial globals, "stop" is never published before a
    "start": the first publication, if any, is "start". *)
Theorem washer_first_report_is_start inputs x rest :
  (WasherMonitor.run WasherMonitor.init_w inputs).2 = x :: rest -> x = "start".
Proof. apply washer_run_first_start. by left. Qed.

(** From the script's initial globals, the last reported state is "", "start"
    or "stop" and both counters stay between 0 and 5. *)
Theorem washer_state_in_range inputs :
  WasherMonitor.well_formed (WasherMonitor.run WasherMonitor.init_w inputs).1.
Proof.
  apply washer_run_well_formed. unfold WasherMonitor.well_formed. simpl.
  split; [by left|lia].
Qed.

(** Hysteresis for "stop": after "start" with [k] low readings already
    counted, further low readings (while connected) publish nothing for
    [5 - k] readings and publish "stop" on the next one; a high reading
    resets the count. *)
Theorem washer_stop_debounce st k inputs :
  WasherMonitor.lastState st = "start" ->
  WasherMonitor.seenAsInactive st = Z.of_nat k -> (k <= 5)%nat ->
  Forall (fun i => (i.1 < 16 # 5)%Q /\ i.2 = true) inputs ->
  ((length inputs <= 5 - k)%nat -> (WasherMonitor.run st inputs).2 = []) /\
  ((length inputs = 6 - k)%nat -> (WasherMonitor.run st inputs).2 = ["stop"]) /\
  (forall power c, (20 < power)%Q ->
   WasherMonitor.updateMeasurement st power c =
   (WasherMonitor.mkW "start" 0 (WasherMonitor.seenAsActive st), [])).
Proof.
  intros Hls Hk Hk5 Hin. split; [|split].
  3:{ intros power c Hp. destruct st as [ls si sa]. simpl in *. subst ls.
      unfold WasherMonitor.updateMeasurement.
      destruct (Qlt_le_dec 20 power) as [_|Hl].
      2:{ exfalso. exact (Qlt_not_le _ _ Hp Hl). }
      unfold WasherMonitor.decide_state. simpl. by destruct c. }
  - revert st k Hls Hk Hk5.
    induction inputs as [|[power c] inputs IH]; intros st k Hls Hk Hk5; [done|].
    apply Forall_cons in Hin as [[Hp Hc] Hin]. simpl in Hp, Hc. subst c.
    simpl length. intros Hlen. cbn [WasherMonitor.run].
    rewrite (washer_low_step st power Hls Hp).
    destruct (Z.ltb_spec (WasherMonitor.seenAsInactive st) 5); [|lia].
    specialize (IH Hin (WasherMonitor.mkW "start" (WasherMonitor.seenAsInactive st + 1) 0) (S k) eq_refl ltac:(simpl; lia) ltac:(lia) ltac:(lia)).
    destruct (WasherMonitor.run _ inputs) as [st2 pub2]. simpl in IH |- *. done.
  - revert st k Hls Hk Hk5.
    induction inputs as [|[power c] inputs IH]; intros st k Hls Hk Hk5;
      [simpl; lia|].
    apply Forall_cons in Hin as [[Hp Hc] Hin]. simpl in Hp, Hc. subst c.
    simpl length. intros Hlen. cbn [WasherMonitor.run].
    rewrite (washer_low_step st power Hls Hp).
    destruct (Z.ltb_spec (WasherMonitor.seenAsInactive st) 5).
    + specialize (IH Hin (WasherMonitor.mkW "start" (WasherMonitor.seenAsInactive st + 1) 0) (S k) eq_refl ltac:(simpl; lia) ltac:(lia) ltac:(lia)).
      destruct (WasherMonitor.run _ inputs) as [st2 pub2]. simpl in IH |- *. done.
    + destruct inputs; [done|]. simpl in Hlen. lia.
Qed.

(** Hysteresis for "start": after "stop" with [k] high readings already
    counted, further high readings (while connected) publish nothing for
    [5 - k] readings and publish "start" on the next one; a low reading
    resets the count. *)
Theorem washer_start_debounce st k inputs :
  WasherMonitor.lastState st = "stop" ->
  WasherMonitor.seenAsActive st = Z.of_nat k -> (k <= 5)%nat ->
  Forall (fun i => (20 < i.1)%Q /\ i.2 = true) inputs ->
  ((length inputs <= 5 - k)%nat -> (WasherMonitor.run st inputs).2 = []) /\
  ((length inputs = 6 - k)%nat -> (WasherMonitor.run st inputs).2 = ["start"]) /\
  (forall power c, (power < 16 # 5)%Q ->
   WasherMonitor.updateMeasurement st power c =
   (WasherMonitor.mkW "stop" (WasherMonitor.seenAsInactive st) 0, [])).
Proof.
  intros Hls Hk Hk5 Hin. split; [|split].
  3:{ intros power c Hp. destruct st as [ls si sa]. simpl in *. subst ls.
      unfold WasherMonitor.updateMeasurement.
      destruct (Qlt_le_dec 20 power) as [Hh|_].
      { exfalso. exact (washer_Q_order power Hh Hp). }
      destruct (Qlt_le_dec power (16 # 5)) as [_|Hl].
      2:{ exfalso. exact (Qlt_not_le _ _ Hp Hl). }
      unfold WasherMonitor.decide_state. simpl. by destruct c. }
  - revert st k Hls Hk Hk5.
    induction inputs as [|[power c] inputs IH]; intros st k Hls Hk Hk5; [done|].
    apply Forall_cons in Hin as [[Hp Hc] Hin]. simpl in Hp, Hc. subst c.
    simpl length. intros Hlen. cbn [WasherMonitor.run].
    rewrite (washer_high_step st power Hls Hp).
    destruct (Z.ltb_spec (WasherMonitor.seenAsActive st) 5); [|lia].
    specialize (IH Hin (WasherMonitor.mkW "stop" 0 (WasherMonitor.seenAsActive st + 1)) (S k) eq_refl ltac:(simpl; lia) ltac:(lia) ltac:(lia)).
    destruct (WasherMonitor.run _ inputs) as [st2 pub2]. simpl in IH |- *. done.
  - revert st k Hls Hk Hk5.
    induction inputs as [|[power c] inputs IH]; intros st k Hls Hk Hk5;
      [simpl; lia|].
    apply Forall_cons in Hin as [[Hp Hc] Hin]. simpl in Hp, Hc. subst c.
    simpl length. intros Hlen. cbn [WasherMonitor.run].
    rewrite (washer_high_step st power Hls Hp).
    destruct (Z.ltb_spec (WasherMonitor.seenAsActive st) 5).
    + specialize (IH Hin (WasherMonitor.mkW "stop" 0 (WasherMonitor.seenAsActive st + 1)) (S k) eq_refl ltac:(simpl; lia) ltac:(lia) ltac:(lia)).
      destruct (WasherMonitor.run _ inputs) as [st2 pub2]. simpl in IH |- *. done.
    + destruct inputs; [done|]. simpl in Hlen. lia.
Qed.

(** ** Concrete instances of the further properties *)

Lemma loop_reaches_targets_witness :
  exists st',
    reachable init_state /\
    loop init_state [payload "window open"]
      [mkSample false false; mkSample false false] =
      (st', [], [(3, HIGH); (3, LOW)], Some []) /\
    (automaticPosition st' =
       automaticPosition (updateAutomaticPosition init_state [payload "window open"]).1 /\
     (exists m, getOpModeStable [mkSample false false; mkSample false false] = Some (m, []) /\
                curtainOpMode st' = m) /\
     forall idx, (idx < NCOVERS)%nat -> getTargetPosition st' idx <> unknown ->
       currentPosition st' !!! idx = getTargetPosition st' idx).
Proof.
  exists (loop init_state [payload "window open"]
            [mkSample false false; mkSample false false]).1.1.1.
  assert (Hl : loop init_state [payload "window open"]
                 [mkSample false false; mkSample false false] =
               ((loop init_state [payload "window open"]
                   [mkSample false false; mkSample false false]).1.1.1,
                [], [(3, HIGH); (3, LOW)], Some [])) by (vm_compute; reflexivity).
  split; [apply rtc_refl|]. split; [exact Hl|].
  exact (loop_reaches_targets init_state _ _ _ _ _ _ (rtc_refl _ _) Hl).
Defined.

Lemma loop_steady_state_witness :
  exists st',
    reachable init_state /\
    loop init_state [payload "window open"]
      [mkSample false false; mkSample false false] =
      (st', [], [(3, HIGH); (3, LOW)], Some []) /\
    getOpModeStable [mkSample false false; mkSample false false] =
      Some (curtainOpMode st', []) /\
    loop st' [] [mkSample false false; mkSample false false] = (st', [], [], Some []).
Proof.
  exists (loop init_state [payload "window open"]
            [mkSample false false; mkSample false false]).1.1.1.
  assert (Hl : loop init_state [payload "window open"]
                 [mkSample false false; mkSample false false] =
               ((loop init_state [payload "window open"]
                   [mkSample false false; mkSample false false]).1.1.1,
                [], [(3, HIGH); (3, LOW)], Some [])) by (vm_compute; reflexivity).
  assert (Hs : getOpModeStable [mkSample false false; mkSample false false] =
               Some (curtainOpMode (loop init_state [payload "window open"]
                   [mkSample false false; mkSample false false]).1.1.1, []))
    by (vm_compute; reflexivity).
  split; [apply rtc_refl|]. split; [exact Hl|]. split; [exact Hs|].
  exact (loop_steady_state init_state _ _ _ _ _ _ _ _ (rtc_refl _ _) Hl Hs).
Defined.

Lemma loop_output_shape_witness :
  exists st',
    loop init_state [payload "window open"]
      [mkSample false false; mkSample false false] =
      (st', [], [(3, HIGH); (3, LOW)], Some []) /\
    exists e0 e1 e2, [(3, HIGH); (3, LOW)] = e0 ++ e1 ++ e2 /\
      cover_pulses 0 e0 /\ cover_pulses 1 e1 /\ cover_pulses 2 e2.
Proof.
  exists (loop init_state [payload "window open"]
            [mkSample false false; mkSample false false]).1.1.1.
  assert (Hl : loop init_state [payload "window open"]
                 [mkSample false false; mkSample false false] =
               ((loop init_state [payload "window open"]
                   [mkSample false false; mkSample false false]).1.1.1,
                [], [(3, HIGH); (3, LOW)], Some [])) by (vm_compute; reflexivity).
  split; [exact Hl|]. exact (loop_output_shape _ _ _ _ _ _ _ Hl).
Defined.

Lemma loop_startup_silent_witness :
  getOpModeStable [mkSample false false; mkSample false false] = Some (automatic, []) /\
  loop init_state [] [mkSample false false; mkSample false false] =
    (init_state, [], [], Some []).
Proof.
  assert (H : getOpModeStable [mkSample false false; mkSample false false] =
              Some (automatic, [])) by (vm_compute; reflexivity).
  split; [exact H|]. exact (loop_startup_silent _ _ H).
Defined.

Lemma ingest_first_bytes_decide_witness :
  reachable init_state /\
  length (payload "curtain close and more text") <> 0%nat /\
  length (payload "curtain close and more tea") <> 0%nat /\
  take UDP_TX_PACKET_MAX_SIZE (payload "curtain close and more text") =
    take UDP_TX_PACKET_MAX_SIZE (payload "curtain close and more tea") /\
  automaticPosition
    (updateAutomaticPosition init_state [payload "curtain close and more text"]).1 =
  automaticPosition
    (updateAutomaticPosition init_state [payload "curtain close and more tea"]).1.
Proof.
  assert (H1 : length (payload "curtain close and more text") <> 0%nat)
    by (vm_compute; discriminate).
  assert (H2 : length (payload "curtain close and more tea") <> 0%nat)
    by (vm_compute; discriminate).
  assert (Ht : take UDP_TX_PACKET_MAX_SIZE (payload "curtain close and more text") =
               take UDP_TX_PACKET_MAX_SIZE (payload "curtain close and more tea"))
    by (vm_compute; reflexivity).
  split; [apply rtc_refl|]. split; [exact H1|]. split; [exact H2|]. split; [exact Ht|].
  exact (ingest_first_bytes_decide init_state _ _ (rtc_refl _ _) H1 H2 Ht).
Defined.

Lemma ingest_stops_at_empty_datagram_witness :
  Forall (fun p => length p <> 0%nat) [payload "window open"] /\
  updateAutomaticPosition init_state
    ([payload "window open"] ++ [] :: [payload "curtain close"]) =
  ((updateAutomaticPosition init_state [payload "window open"]).1,
   [payload "curtain close"]).
Proof.
  assert (H : Forall (fun p => length p <> 0%nat) [payload "window open"])
    by (repeat constructor; vm_compute; discriminate).
  split; [exact H|]. exact (ingest_stops_at_empty_datagram init_state _ _ H).
Defined.

Lemma getOpModeStable_two_legal_readings_witness :
  getOpModeStable [mkSample true false; mkSample true true; mkSample true false] =
    Some (manual_up, []) /\
  exists pre x mid y,
    [mkSample true false; mkSample true true; mkSample true false] =
      pre ++ x :: mid ++ y :: [] /\ decode x = Some manual_up /\
    Forall both_high mid /\ decode y = Some manual_up.
Proof.
  assert (H : getOpModeStable [mkSample true false; mkSample true true;
                               mkSample true false] = Some (manual_up, []))
    by (vm_compute; reflexivity).
  split; [exact H|]. exact (getOpModeStable_two_legal_readings _ _ _ H).
Defined.

Lemma v1_ingest_prefix_match_witness :
  length (CoverControlV1.packetBuffer CoverControlV1.init_state) = UDP_TX_PACKET_MAX_SIZE /\
  length (payload "clo") <> 0%nat /\
  CoverControlV1.updateAutomaticPosition CoverControlV1.init_state [payload "clo"] =
  (CoverControlV1.mkState
     (if decide (CoverControlV1.matches "open" (payload "clo")) then CoverControlV1.up
      else if decide (CoverControlV1.matches "close" (payload "clo"))
      then CoverControlV1.down
      else CoverControlV1.automaticPosition CoverControlV1.init_state)
     (CoverControlV1.currentPosition CoverControlV1.init_state)
     (udp_read (CoverControlV1.packetBuffer CoverControlV1.init_state) (payload "clo")),
   []).
Proof.
  assert (Hb : length (CoverControlV1.packetBuffer CoverControlV1.init_state) =
               UDP_TX_PACKET_MAX_SIZE) by reflexivity.
  assert (Hp : length (payload "clo") <> 0%nat) by (vm_compute; discriminate).
  split; [exact Hb|]. split; [exact Hp|].
  exact (v1_ingest_prefix_match _ _ [] Hb Hp).
Defined.

Lemma v1_switch_overrides_witness :
  let st' := CoverControlV1.mkState CoverControlV1.up CoverControlV1.down
               (udp_read (CoverControlV1.packetBuffer CoverControlV1.init_state)
                  (payload "open")) in
  CoverControlV1.loop CoverControlV1.init_state [payload "open"] (mkSample false true) =
    (st', [], [(CoverControlV1.SIGNAL_LED, HIGH); (CoverControlV1.OPTO_DOWN, HIGH);
               (CoverControlV1.OPTO_DOWN, LOW); (CoverControlV1.SIGNAL_LED, LOW)]) /\
  (manualUp (mkSample false true) = HIGH ->
   CoverControlV1.currentPosition st' = CoverControlV1.up) /\
  (manualUp (mkSample false true) = LOW -> manualDown (mkSample false true) = HIGH ->
   CoverControlV1.currentPosition st' = CoverControlV1.down) /\
  (manualUp (mkSample false true) = LOW -> manualDown (mkSample false true) = LOW ->
   CoverControlV1.automaticPosition st' <> CoverControlV1.unknown ->
   CoverControlV1.currentPosition st' = CoverControlV1.automaticPosition st').
Proof.
  cbv zeta.
  assert (Hl : CoverControlV1.loop CoverControlV1.init_state [payload "open"]
                 (mkSample false true) =
    (CoverControlV1.mkState CoverControlV1.up CoverControlV1.down
       (udp_read (CoverControlV1.packetBuffer CoverControlV1.init_state) (payload "open")),
     [], [(CoverControlV1.SIGNAL_LED, HIGH); (CoverControlV1.OPTO_DOWN, HIGH);
          (CoverControlV1.OPTO_DOWN, LOW); (CoverControlV1.SIGNAL_LED, LOW)]))
    by (vm_compute; reflexivity).
  split; [exact Hl|]. exact (v1_switch_overrides _ _ _ _ _ _ Hl).
Defined.

Lemma washer_first_report_is_start_witness :
  (WasherMonitor.run WasherMonitor.init_w [(100%Q, true)]).2 = ["start"] /\
  "start" = "start".
Proof.
  assert (H : (WasherMonitor.run WasherMonitor.init_w [(100%Q, true)]).2 = ["start"])
    by (vm_compute; reflexivity).
  split; [exact H|]. exact (washer_first_report_is_start _ _ [] H).
Defined.

Lemma washer_stop_debounce_witness :
  let st := WasherMonitor.mkW "start" 3 0 in
  let inputs := [(1%Q, true); (1%Q, true); (1%Q, true)] in
  WasherMonitor.lastState st = "start" /\
  WasherMonitor.seenAsInactive st = Z.of_nat 3 /\ (3 <= 5)%nat /\
  Forall (fun i => (i.1 < 16 # 5)%Q /\ i.2 = true) inputs /\
  (((length inputs <= 5 - 3)%nat -> (WasherMonitor.run st inputs).2 = []) /\
   ((length inputs = 6 - 3)%nat -> (WasherMonitor.run st inputs).2 = ["stop"]) /\
   (forall power c, (20 < power)%Q ->
    WasherMonitor.updateMeasurement st power c =
    (WasherMonitor.mkW "start" 0 (WasherMonitor.seenAsActive st), []))).
Proof.
  cbv zeta.
  assert (Hin : Forall (fun i : Q * bool => (i.1 < 16 # 5)%Q /\ i.2 = true)
                  [(1%Q, true); (1%Q, true); (1%Q, true)])
    by (repeat (constructor; [split; [vm_compute; reflexivity|reflexivity]|]);
        constructor).
  split; [reflexivity|]. split; [reflexivity|]. split; [lia|]. split; [exact Hin|].
  exact (washer_stop_debounce (WasherMonitor.mkW "start" 3 0) 3 _ eq_refl eq_refl ltac:(lia) Hin).
Defined.

Lemma washer_start_debounce_witness :
  let st := WasherMonitor.mkW "stop" 0 4 in
  let inputs := [(100%Q, true); (100%Q, true)] in
  WasherMonitor.lastState st = "stop" /\
  WasherMonitor.seenAsActive st = Z.of_nat 4 /\ (4 <= 5)%nat /\
  Forall (fun i => (20 < i.1)%Q /\ i.2 = true) inputs /\
  (((length inputs <= 5 - 4)%nat -> (WasherMonitor.run st inputs).2 = []) /\
   ((length inputs = 6 - 4)%nat -> (WasherMonitor.run st inputs).2 = ["start"]) /\
   (forall power c, (power < 16 # 5)%Q ->
    WasherMonitor.updateMeasurement st power c =
    (WasherMonitor.mkW "stop" (WasherMonitor.seenAsInactive st) 0, []))).
Proof.
  cbv zeta.
  assert (Hin : Forall (fun i : Q * bool => (20 < i.1)%Q /\ i.2 = true)
                  [(100%Q, true); (100%Q, true)])
    by (repeat (constructor; [split; [vm_compute; reflexivity|reflexivity]|]);
        constructor).
  split; [reflexivity|]. split; [reflexivity|]. split; [lia|]. split; [exact Hin|].
  exact (washer_start_debounce (WasherMonitor.mkW "stop" 0 4) 4 _ eq_refl eq_refl ltac:(lia) Hin).
Defined.
